(** * flitz: request dispatch and middleware composition

    A shallow embedding of [src/server.ts] (routing, middleware chains,
    registration, the cached static provider) and of [src/handlers.ts]
    (the two default handlers), with the properties of the specification
    stated and proved over it.

    Conventions of the embedding:
    - the JavaScript objects used as dictionaries ([groupedHandlers],
      [compiledHandlers], [files]) are [gmap string _]; property names
      inherited from [Object.prototype] are outside the model (request
      methods come from Node's HTTP parser, request urls start with "/");
    - a JavaScript function handed to the server is a [Func]: a name and
      what its body does when it is called in each of the shapes the
      server uses; every such function is [async], so a [throw] in its
      body is a rejected promise;
    - the body of such a function runs without suspension, and a promise
      is represented by its [Completion]; [await p] and [p.catch(h)] act
      on that completion at the place where they are written: the
      interleaving of Node's micro-tasks is not modelled, the order in
      which functions are called is;
    - registration code runs in a state-and-exception monad over the
      variables that [createServer] closes over, so that an exception
      leaves behind exactly the mutations performed before it. *)

From stdpp Require Import base gmap strings list fin_maps.
From Stdlib Require Import ZArith Lia.
From Stdlib.Strings Require Import Byte.

Local Open Scope Z_scope.
#[local] Set Warnings "-register-all".

(** ** Requests, responses and observable events *)

Inductive JSError :=
| TypeError (msg : string)
| Failure (msg : string).

(** [IncomingMessage]: the fields the server reads.  [url] is the raw
    request target of the request line, query string included. *)
Record Request := {
  method : string;
  url : string;
  headers : list (string * string)
}.

(** Operations on [ServerResponse] and on the console. *)
Inductive ResOp :=
| WriteHead (status : Z)
| WriteBody (data : list byte)
| EndResponse
| ConsoleError (e : JSError).

(** What a request makes happen, in order.  [EvTest] records that the
    dispatcher evaluates a validator, [EvCall] and [EvCallError] that a
    function is called; the functions are known by their names. *)
Inductive Event :=
| EvTest (k : nat)                       (* [isPathValid] of the k-th route of the bucket *)
| EvCall (f : string)                    (* [f(req, res)] or [f(req, res, next)] *)
| EvCallError (f : string) (e : JSError) (* [f(err, req, res)] *)
| EvRes (op : ResOp)                     (* an operation on the response *)
| EvUnhandled (e : JSError).             (* a rejection that nothing catches *)

Abbreviation World := (list Event).

(** [res.headersSent]: the head of the response exists once
    [writeHead] was called, and [write] and [end] send the implicit head
    when none was written. *)
Definition headersSent (w : World) : bool :=
  existsb (fun ev => match ev with
                     | EvRes (WriteHead _) | EvRes (WriteBody _)
                     | EvRes EndResponse => true
                     | _ => false
                     end) w.

(** ** JavaScript functions *)

Inductive Completion :=
| Resolved
| Rejected (e : JSError).

Inductive Step :=
| Do (op : ResOp)
| CallNext.

(** The body of an async function: what it does, in order, and how the
    promise it returns settles. *)
Record Script := {
  steps : list Step;
  completion : Completion
}.

Inductive MatchResult :=
| Returns (b : bool)
| Throws (e : JSError).

Record Func := {
  fname : string;
  (* [f(req)], as a [RequestPathValidator] *)
  validate : Request -> MatchResult;
  (* [f(req, res)] and [f(req, res, next)] *)
  run : Request -> World -> Script;
  (* [f(err, req, res)] *)
  recover : JSError -> Request -> World -> Script
}.

Section Body.
(** The state a body runs in: the response seen through [view] and
    extended by [emit]; [next] is the third argument, if there is one. *)
Context {S : Type} (view : S -> World) (emit : Event -> S -> S).
Context (next : option (S -> S)).

Fixpoint run_steps (ss : list Step) (c : Completion) (s : S) : Completion * S :=
  match ss with
  | [] => (c, s)
  | Do op :: ss' => run_steps ss' c (emit (EvRes op) s)
  | CallNext :: ss' =>
      match next with
      | Some k => run_steps ss' c (k s)
      | None => (Rejected (TypeError "next is not a function"), s)
      end
  end.

Definition run_script (sc : Script) (s : S) : Completion * S :=
  run_steps (steps sc) (completion sc) s.

(** [f(req, res, next)] *)
Definition call (f : Func) (req : Request) (s : S) : Completion * S :=
  let s := emit (EvCall (fname f)) s in
  run_script (run f req (view s)) s.
End Body.

Definition log (ev : Event) (w : World) : World := w ++ [ev].

(** [f(req, res)] *)
Definition call_handler (f : Func) (req : Request) (w : World) : Completion * World :=
  call (fun w => w) log None f req w.

(** [f(err, req, res)]; the promise is returned to the caller. *)
Definition call_error_handler (f : Func) (e : JSError) (req : Request) (w : World)
  : Completion * World :=
  let w := log (EvCallError (fname f) e) w in
  run_script log None (recover f e req w) w.

(** ** Types of [server.ts] *)

(** What the closures created by [createServer] can read at request time. *)
Record Env := { env_errorHandler : Func }.

Definition GetFunc (T : Type) := Env -> T.

Definition RequestHandler := Env -> Request -> World -> Completion * World.
Definition RequestPathValidator := Request -> MatchResult.

Record RequestHandlerContext := {
  handler : RequestHandler;
  isPathValid : RequestPathValidator
}.

Abbreviation RequestHandlersGrouped := (gmap string (list RequestHandlerContext)).

(** ** [mergeHandler] *)

(** The variables of one invocation of a merged handler: the cursor [i]
    and the response. *)
Record Frame := { i : Z; res : World }.

Definition frame_emit (ev : Event) (fr : Frame) : Frame :=
  {| i := i fr; res := log ev (res fr) |}.

(** [middlewares[k]]: [undefined] outside the array. *)
Definition array_get {A} (l : list A) (k : Z) : option A :=
  if k <? 0 then None else l !! Z.to_nat k.

(** [promise.catch(handleError)] with
    [handleError = err => getErrorHandler()(err, req, res)]. *)
Definition catch_handleError (getErrorHandler : GetFunc Func) (env : Env)
    (req : Request) (c : Completion) (w : World) : World :=
  match c with
  | Resolved => w
  | Rejected e =>
      match call_error_handler (getErrorHandler env) e req w with
      | (Resolved, w') => w'
      | (Rejected e', w') => log (EvUnhandled e') w'
      end
  end.

Section MergeHandler.
Context (handler : RequestHandler) (middlewares : list Func).
Context (getErrorHandler : GetFunc Func).
Context (env : Env) (req : Request).

(** The closure [next].  [depth] bounds the nesting of calls of [next]
    inside middlewares; each call moves the cursor forward, so the
    length of [middlewares] is enough (see [next_depth_irrelevant]). *)
Fixpoint next (depth : nat) (fr : Frame) : Frame :=
  let fr := {| i := i fr + 1; res := res fr |} in
  match array_get middlewares (i fr) with
  | Some mw =>
      match depth with
      | O => fr
      | S depth' =>
          let '(c, fr') := call res frame_emit (Some (next depth')) mw req fr in
          {| i := i fr'; res := catch_handleError getErrorHandler env req c (res fr') |}
      end
  | None =>
      let '(c, w) := handler env req (res fr) in
      {| i := i fr; res := catch_handleError getErrorHandler env req c w |}
  end.
End MergeHandler.

Definition mergeHandler (handler : RequestHandler) (middlewares : list Func)
    (getErrorHandler : GetFunc Func) : RequestHandler :=
  fun env req w =>
    let fr := next handler middlewares getErrorHandler env req
                (length middlewares) {| i := -1; res := w |} in
    (Resolved, res fr).

(** ** Default handlers ([handlers.ts]) *)

Definition script (ss : list Step) (c : Completion) : Script :=
  {| steps := ss; completion := c |}.

(** [console.error('[flitz]', err); if (!res.headersSent) res.writeHead(500);
    res.end()].  The server only ever calls it as [f(err, req, res)]; in
    the other shapes [res] is [undefined] and reading [res.headersSent]
    fails. *)
Definition defaultErrorHandler : Func := {|
  fname := "defaultErrorHandler";
  validate := fun _ => Returns true;
  run := fun req _ =>
    script [Do (ConsoleError (Failure (url req)))]
           (Rejected (TypeError "cannot read property headersSent of undefined"));
  recover := fun err _ w =>
    script (Do (ConsoleError err)
              :: (if headersSent w then [] else [Do (WriteHead 500)])
              ++ [Do EndResponse])
           Resolved
|}.

(** [res.writeHead(404); res.end()].  Called as [f(err, req, res)] its
    second parameter is the request, which has no [writeHead]. *)
Definition defaultNotFoundHandler : Func := {|
  fname := "defaultNotFoundHandler";
  validate := fun _ => Returns true;
  run := fun _ _ => script [Do (WriteHead 404); Do EndResponse] Resolved;
  recover := fun _ _ _ => script [] (Rejected (TypeError "res.writeHead is not a function"))
|}.

(** ** JavaScript values passed to the registration functions *)

(** A [RegExp] without the [g] and [y] flags: [test] has no state. *)
Record RegExp := {
  re_source : string;
  re_test : string -> bool
}.

(** [VObject use] is an object whose only property of interest is [use]
    (a [RequestHandlerOptions]); [use] is absent or an array. *)
Inductive JSValue :=
| VUndefined
| VNull
| VBoolean (b : bool)
| VNumber (n : Z)
| VString (s : string)
| VRegExp (r : RegExp)
| VFunction (f : Func)
| VArray (l : list JSValue)
| VObject (use : option (list JSValue)).

Definition typeof (v : JSValue) : string :=
  match v with
  | VUndefined => "undefined"
  | VNull => "object"
  | VBoolean _ => "boolean"
  | VNumber _ => "number"
  | VString _ => "string"
  | VRegExp _ => "object"
  | VFunction _ => "function"
  | VArray _ => "object"
  | VObject _ => "object"
  end.

Definition truthy (v : JSValue) : bool :=
  match v with
  | VUndefined | VNull => false
  | VBoolean b => b
  | VNumber n => negb (n =? 0)
  | VString s => negb (String.eqb s EmptyString)
  | VRegExp _ | VFunction _ | VArray _ | VObject _ => true
  end.

Definition is_function (v : JSValue) : bool := String.eqb (typeof v) "function".

(** [arguments[k]] *)
Definition arg (args : list JSValue) (k : nat) : JSValue :=
  default VUndefined (args !! k).

(** [options.use] *)
Definition get_use (options : JSValue) : option (list JSValue) :=
  match options with
  | VObject use => use
  | _ => None
  end.

(** The functions of an array whose elements passed
    [typeof mw === 'function']. *)
Definition functions_of (l : list JSValue) : list Func :=
  omap (fun v => match v with VFunction f => Some f | _ => None end) l.

(** ** Server state and the registration monad *)

(** The variables of [createServer] ([instance], the listening socket,
    is left out). *)
Record Server := {
  errorHandler : Func;
  globalMiddleWares : list Func;
  notFoundHandler : Func;
  groupedHandlers : RequestHandlersGrouped;
  compiledHandlers : RequestHandlersGrouped
}.

Inductive Result (A : Type) :=
| Return (a : A)
| Throw (e : JSError).
Arguments Return {A} a.
Arguments Throw {A} e.

(** A statement sequence over the server's variables; [Throw] keeps the
    state reached when the exception was raised. *)
Definition M (A : Type) : Type := Server -> Result A * Server.

Global Instance M_ret : MRet M := fun A a st => (Return a, st).
Global Instance M_bind : MBind M := fun A B f m st =>
  match m st with
  | (Return a, st') => f a st'
  | (Throw e, st') => (Throw e, st')
  end.

Definition throw {A} (e : JSError) : M A := fun st => (Throw e, st).
Definition get_state : M Server := fun st => (Return st, st).
Definition set_groupedHandlers (g : RequestHandlersGrouped) : M unit :=
  fun st => (Return tt,
             {| errorHandler := errorHandler st;
                globalMiddleWares := globalMiddleWares st;
                notFoundHandler := notFoundHandler st;
                groupedHandlers := g;
                compiledHandlers := compiledHandlers st |}).
Definition set_compiledHandlers (c : RequestHandlersGrouped) : M unit :=
  fun st => (Return tt,
             {| errorHandler := errorHandler st;
                globalMiddleWares := globalMiddleWares st;
                notFoundHandler := notFoundHandler st;
                groupedHandlers := groupedHandlers st;
                compiledHandlers := c |}).
Definition set_globalMiddleWares (l : list Func) : M unit :=
  fun st => (Return tt,
             {| errorHandler := errorHandler st;
                globalMiddleWares := l;
                notFoundHandler := notFoundHandler st;
                groupedHandlers := groupedHandlers st;
                compiledHandlers := compiledHandlers st |}).
Definition set_errorHandler (f : Func) : M unit :=
  fun st => (Return tt,
             {| errorHandler := f;
                globalMiddleWares := globalMiddleWares st;
                notFoundHandler := notFoundHandler st;
                groupedHandlers := groupedHandlers st;
                compiledHandlers := compiledHandlers st |}).
Definition set_notFoundHandler (f : Func) : M unit :=
  fun st => (Return tt,
             {| errorHandler := errorHandler st;
                globalMiddleWares := globalMiddleWares st;
                notFoundHandler := f;
                groupedHandlers := groupedHandlers st;
                compiledHandlers := compiledHandlers st |}).

(** ** Path validators *)

Definition isPathValidByRegex (path : RegExp) : RequestPathValidator :=
  fun req => Returns (re_test path (url req)).

Definition isPathValidByString (path : string) : RequestPathValidator :=
  fun req => Returns (String.eqb (url req) path).

(** ** [compileAllWithMiddlewares] *)

Definition compileAllWithMiddlewares
    (groupedHandlers : RequestHandlersGrouped)
    (middlewares : list Func) (getErrorHandler : GetFunc Func)
  : RequestHandlersGrouped :=
  if (length middlewares =? 0)%nat then groupedHandlers
  else
    (fun bucket =>
       map (fun ctx => {| handler := mergeHandler (handler ctx) middlewares getErrorHandler;
                          isPathValid := isPathValid ctx |}) bucket)
      <$> groupedHandlers.

(** ** [withMethod] *)

(** A JavaScript function used as a [RequestHandler]. *)
Definition handler_of (f : Func) : RequestHandler :=
  fun _ req w => call_handler f req w.

(** [RequestPath], once the type tests on [arguments[0]] have passed. *)
Inductive RequestPath :=
| PathString (s : string)
| PathRegExp (r : RegExp)
| PathFunction (f : Func).

(** The options of [withMethod]: [groupedHandlers] is the variable of the
    server state, and [server], which the call returns for chaining, is
    left out. *)
Record WithMethodOptions := {
  args : list JSValue;
  getErrorHandler : GetFunc Func;
  opt_method : string;
  recompileHandlers : M unit
}.

(** The type tests on [path] and [handler] bind the value at the type
    they establish; the statements are in the order of the source. *)
Definition withMethod (opts : WithMethodOptions) : M unit :=
  path ← match arg (args opts) 0 with
         | VString s => mret (PathString s)
         | VRegExp r => mret (PathRegExp r)
         | VFunction f => mret (PathFunction f)
         | _ => throw (TypeError "path must be of type string, function or RegEx")
         end;
  let '(optionsOrMiddlewares, handler) :=
    if (length (args opts) <? 3)%nat
    then (VUndefined, arg (args opts) 1)
    else (arg (args opts) 1, arg (args opts) 2) in
  handler ← match handler with
            | VFunction f => mret f
            | _ => throw (TypeError "handler must be a function")
            end;
  let options :=
    if truthy optionsOrMiddlewares then
      match optionsOrMiddlewares with
      | VArray l => VObject (Some l)
      | VFunction _ => VObject (Some [optionsOrMiddlewares])
      | _ => optionsOrMiddlewares
      end
    else VObject None in
  (if negb (String.eqb (typeof options) "object")
   then throw (TypeError "optionsOrMiddlewares must be an object or array")
   else mret tt);;
  let use := default [] (get_use options) in
  (if negb (length use =? 0)%nat && negb (forallb is_function use)
   then throw (TypeError "optionsOrMiddlewares must be an array of functions")
   else mret tt);;
  st ← get_state;
  (if groupedHandlers st !! opt_method opts is None
   then set_groupedHandlers (<[opt_method opts := []]> (groupedHandlers st))
   else mret tt);;
  let handler :=
    if negb (length use =? 0)%nat
    then mergeHandler (handler_of handler) (functions_of use) (getErrorHandler opts)
    else handler_of handler in
  let isPathValid :=
    match path with
    | PathFunction f => validate f
    | PathRegExp r => isPathValidByRegex r
    | PathString s => isPathValidByString s
    end in
  st ← get_state;
  set_groupedHandlers
    (<[opt_method opts :=
         default [] (groupedHandlers st !! opt_method opts)
           ++ [{| handler := handler; isPathValid := isPathValid |}]]>
       (groupedHandlers st));;
  recompileHandlers opts.

(** ** [createServer] *)

(** [const getErrorHandler = () => errorHandler] *)
Definition server_getErrorHandler : GetFunc Func := env_errorHandler.

Definition server_recompileHandlers : M unit :=
  st ← get_state;
  set_compiledHandlers
    (compileAllWithMiddlewares (groupedHandlers st) (globalMiddleWares st)
       server_getErrorHandler).

(** The state right after [createServer()]: [compiledHandlers] is
    initialised with [groupedHandlers], both empty. *)
Definition createServer : Server := {|
  errorHandler := defaultErrorHandler;
  globalMiddleWares := [];
  notFoundHandler := defaultNotFoundHandler;
  groupedHandlers := ∅;
  compiledHandlers := ∅
|}.

(** [flitz.connect], [flitz.delete], [flitz.get], ...: [m] is the
    upper-case method name the sugar passes on. *)
Definition flitz_method (m : string) (arguments : list JSValue) : M unit :=
  withMethod {| opt_method := m; args := arguments;
                getErrorHandler := server_getErrorHandler;
                recompileHandlers := server_recompileHandlers |}.

Definition flitz_connect := flitz_method "CONNECT".
Definition flitz_delete := flitz_method "DELETE".
Definition flitz_get := flitz_method "GET".
Definition flitz_head := flitz_method "HEAD".
Definition flitz_options := flitz_method "OPTIONS".
Definition flitz_patch := flitz_method "PATCH".
Definition flitz_post := flitz_method "POST".
Definition flitz_put := flitz_method "PUT".
Definition flitz_trace := flitz_method "TRACE".

Definition flitz_setErrorHandler (handler : JSValue) : M unit :=
  match handler with
  | VFunction f => set_errorHandler f
  | _ => throw (TypeError "handler must be a function")
  end.

Definition flitz_setNotFoundHandler (handler : JSValue) : M unit :=
  match handler with
  | VFunction f => set_notFoundHandler f
  | _ => throw (TypeError "handler must be a function")
  end.

Definition flitz_use (middlewares : list JSValue) : M unit :=
  (if negb (forallb is_function middlewares)
   then throw (TypeError "middlewares must be a list of functions")
   else mret tt);;
  st ← get_state;
  set_globalMiddleWares (globalMiddleWares st ++ functions_of middlewares);;
  server_recompileHandlers.

(** ** The dispatcher *)

Inductive FindResult :=
| Found (ctx : RequestHandlerContext)
| NotFound
| Threw (e : JSError).

(** [bucket.find(ctx => ctx.isPathValid(req))], scanning from index [k]. *)
Fixpoint find_ctx (req : Request) (k : nat) (bucket : list RequestHandlerContext)
    (w : World) : FindResult * World :=
  match bucket with
  | [] => (NotFound, w)
  | ctx :: rest =>
      let w := log (EvTest k) w in
      match isPathValid ctx req with
      | Throws e => (Threw e, w)
      | Returns true => (Found ctx, w)
      | Returns false => find_ctx req (S k) rest w
      end
  end.

(** The body of the request listener, over any table and handler slots. *)
Definition dispatch (table : RequestHandlersGrouped)
    (notFound error : Func) (req : Request) (w : World) : Completion * World :=
  let env := {| env_errorHandler := error |} in
  let '(found, w) :=
    match table !! method req with
    | None => (NotFound, w)
    | Some bucket => find_ctx req 0 bucket w
    end in
  match found with
  | Threw e => call_error_handler error e req w
  | Found ctx =>
      match handler ctx env req w with
      | (Resolved, w) => (Resolved, w)
      | (Rejected e, w) => call_error_handler error e req w
      end
  | NotFound =>
      match call_handler notFound req w with
      | (Resolved, w) => (Resolved, w)
      | (Rejected e, w) => call_error_handler error e req w
      end
  end.

(** [flitz(req, res)] *)
Definition flitz (st : Server) (req : Request) (w : World) : Completion * World :=
  dispatch (compiledHandlers st) (notFoundHandler st) (errorHandler st) req w.

(** ** The static provider, cache mode *)

(** What [fs.readdirSync] and [fs.statSync] show below a directory: each
    name of a listing with the node it denotes.  Paths are lists of
    segments; [path.join(dir, item)] appends a segment and
    [path.relative(rootDir, fullPath)] drops the segments of [rootDir]
    (Node's [path] on a POSIX system, where [path.sep] is "/"). *)
Inductive FsNode :=
| FsFile (data : list byte)
| FsDir (content : list (string * FsNode))
| FsOther.

Definition joinPath (dir : list string) (item : string) : list string := dir ++ [item].
Definition relativePath (from to : list string) : list string := drop (length from) to.

(** [s.endsWith(suffix)] *)
Definition endsWith (s suffix : string) : bool :=
  (String.length suffix <=? String.length s)%nat
  && String.eqb (String.substring (String.length s - String.length suffix)
                           (String.length suffix) s) suffix.

(** [s.startsWith(p)] *)
Definition startsWith (s p : string) : bool := String.prefix p s.

Abbreviation FileWithData := (gmap string (list byte)).

Section LoadAllFiles.
Context (rootDir : list string) (basePath : string).

(** One turn of the loop of [loadAllFiles]: the item at [fullPath],
    which [fs.statSync] shows to be [node]. *)
Fixpoint loadItem (node : FsNode) (fullPath : list string) (files : FileWithData)
  : FileWithData :=
  match node with
  | FsDir sub =>
      fold_left (fun files entry =>
                   loadItem (snd entry) (joinPath fullPath (fst entry)) files)
                sub files
  | FsFile data =>
      let bpSuffix := if endsWith basePath "/" then EmptyString else "/" in
      let key := basePath +:+ bpSuffix
                 +:+ String.concat "/" (relativePath rootDir fullPath) in
      <[key := data]> files
  | FsOther => files
  end.

(** [loadAllFiles(dir, files, rootDir, basePath)], where [content] is
    the listing of [dir]. *)
Definition loadAllFiles (content : list (string * FsNode)) (dir : list string)
    (files : FileWithData) : FileWithData :=
  fold_left (fun files entry =>
               loadItem (snd entry) (joinPath dir (fst entry)) files)
            content files.
End LoadAllFiles.

Definition idle : Script := script [] Resolved.

(** The map [files] that [createStaticHandlerCached] fills when it is
    called; [content] is the listing of [rootDir] at that time. *)
Definition staticFiles (content : list (string * FsNode)) (rootDir : list string)
    (basePath : string) : FileWithData :=
  loadAllFiles rootDir basePath content rootDir ∅.

(** The handler returned by [createStaticHandlerCached].  A [Buffer] is
    an object, so [if (data)] only tells a present key from an absent one. *)
Definition createStaticHandlerCached (content : list (string * FsNode))
    (rootDir : list string) (basePath : string) : Func :=
  let files := staticFiles content rootDir basePath in
  {| fname := "createStaticHandlerCached";
     validate := fun _ => Returns true;
     run := fun req _ =>
       match files !! url req with
       | Some data =>
           script [Do (WriteHead 200); Do (WriteBody data); Do EndResponse] Resolved
       | None =>
           script [Do (WriteHead 404); Do EndResponse] Resolved
       end;
     recover := fun _ _ _ => idle |}.

Definition createStaticPathValidator (basePath : string) : Func :=
  {| fname := "createStaticPathValidator";
     validate := fun req => Returns (startsWith (url req) basePath);
     run := fun _ _ => idle;
     recover := fun _ _ _ => idle |}.

(** [addStatic] with [cache = true] and an absolute [rootDir] (the
    provider without cache reads the file system at request time and is
    not part of this development). *)
Definition addStatic (content : list (string * FsNode)) (basePath : string)
    (rootDir : list string) : M unit :=
  let handler := createStaticHandlerCached content rootDir basePath in
  flitz_get [VFunction (createStaticPathValidator basePath); VFunction handler].

(** [flitz.static(basePath, rootDir)] *)
Definition flitz_static := addStatic.

(** ** Vocabulary of the specification *)

(** "A string, a pattern object or a predicate function". *)
Definition is_path (v : JSValue) : bool :=
  match v with
  | VString _ | VRegExp _ | VFunction _ => true
  | _ => false
  end.

(** The argument a registration call takes as its handler: the second of
    two, the third of three. *)
Definition handler_arg (args : list JSValue) : JSValue :=
  if (length args <? 3)%nat then arg args 1 else arg args 2.

(** "Fails with InvalidArgument": the call throws a [TypeError]. *)
Definition raises_InvalidArgument {A} (r : Result A) : Prop :=
  ∃ msg, r = Throw (TypeError msg).

(** The validator [withMethod] stores for a path that passed its check. *)
Definition validator_of (path : JSValue) : RequestPathValidator :=
  match path with
  | VString s => isPathValidByString s
  | VRegExp r => isPathValidByRegex r
  | VFunction f => validate f
  | _ => fun _ => Returns false
  end.

Definition question_mark : Ascii.ascii := Ascii.ascii_of_nat 63.

(** The path of a request: its url up to the first "?", where the query
    string starts. *)
Fixpoint url_path (u : string) : string :=
  match u with
  | EmptyString => EmptyString
  | String c rest =>
      if Ascii.eqb c question_mark then EmptyString else String c (url_path rest)
  end.

(** The evaluations of the first [n] validators of a bucket. *)
Definition tests (n : nat) : World := map EvTest (seq 0 n).

(** "The first route whose matcher returns true", in registration order:
    the route at index [k] returns true and the scan reaches it, every
    route before it having returned false. *)
Definition first_match_at (req : Request) (bucket : list RequestHandlerContext)
    (k : nat) (ctx : RequestHandlerContext) : Prop :=
  bucket !! k = Some ctx
  ∧ isPathValid ctx req = Returns true
  ∧ ∀ j c, (j < k)%nat -> bucket !! j = Some c -> isPathValid c req = Returns false.

(** "No route in the bucket matches". *)
Definition no_match (req : Request) (bucket : list RequestHandlerContext) : Prop :=
  Forall (fun c => isPathValid c req = Returns false) bucket.

(** The scan reaches the route at index [k] and its matcher throws [e]. *)
Definition first_throw_at (req : Request) (bucket : list RequestHandlerContext)
    (k : nat) (e : JSError) : Prop :=
  (∃ ctx, bucket !! k = Some ctx ∧ isPathValid ctx req = Throws e)
  ∧ ∀ j c, (j < k)%nat -> bucket !! j = Some c -> isPathValid c req = Returns false.

(** [try { await p } catch (e) { await errorHandler(e, req, res) }] *)
Definition await_or_catch (error : Func) (req : Request) (p : Completion * World)
  : Completion * World :=
  match p with
  | (Resolved, w) => (Resolved, w)
  | (Rejected e, w) => call_error_handler error e req w
  end.

(** The calls of functions in a trace, and the evaluations of validators. *)
Definition is_invocation (ev : Event) : bool :=
  match ev with
  | EvCall _ | EvCallError _ _ => true
  | _ => false
  end.
Definition invocations (w : World) : World := List.filter is_invocation w.

Definition is_evaluation (ev : Event) : bool :=
  match ev with
  | EvTest _ => true
  | _ => false
  end.
Definition evaluations (w : World) : World := List.filter is_evaluation w.

(** *** Registration calls by shape *)

(** The forms of the [optionsOrMiddlewares] argument. *)
Inductive OptionsOrMiddlewares :=
| NoOptions                                  (* [(path, handler)] *)
| SingleMiddleware (f : Func)                (* [(path, mw, handler)] *)
| MiddlewareList (l : list Func)             (* [(path, [mw, ...], handler)] *)
| OptionsRecord (use : option (list Func)).  (* [(path, { use }, handler)] *)

(** "The ordered list of route-scoped middlewares" the three forms
    normalise to. *)
Definition route_middlewares (o : OptionsOrMiddlewares) : list Func :=
  match o with
  | NoOptions => []
  | SingleMiddleware f => [f]
  | MiddlewareList l => l
  | OptionsRecord use => default [] use
  end.

Definition value_of_path (p : RequestPath) : JSValue :=
  match p with
  | PathString s => VString s
  | PathRegExp r => VRegExp r
  | PathFunction f => VFunction f
  end.

(** The [arguments] of a well-typed registration call. *)
Definition route_args (p : RequestPath) (o : OptionsOrMiddlewares) (h : Func)
  : list JSValue :=
  match o with
  | NoOptions => [value_of_path p; VFunction h]
  | SingleMiddleware f => [value_of_path p; VFunction f; VFunction h]
  | MiddlewareList l => [value_of_path p; VArray (map VFunction l); VFunction h]
  | OptionsRecord use => [value_of_path p; VObject (map VFunction <$> use); VFunction h]
  end.

(** "Wrapping [h] with the middlewares [ms]": the chain [ms..., h]; an
    empty list leaves [h] as it is. *)
Definition wrap_with (ms : list Func) (h : RequestHandler) : RequestHandler :=
  match ms with
  | [] => h
  | _ => mergeHandler h ms server_getErrorHandler
  end.

(** The route a registration call stands for: its validator and its
    handler wrapped with the route-scoped middlewares. *)
Definition route_of (p : RequestPath) (o : OptionsOrMiddlewares) (h : Func)
  : RequestHandlerContext :=
  {| handler := wrap_with (route_middlewares o) (handler_of h);
     isPathValid := validator_of (value_of_path p) |}.

(** The same route wrapped with global middlewares. *)
Definition with_globals (gs : list Func) (ctx : RequestHandlerContext)
  : RequestHandlerContext :=
  {| handler := wrap_with gs (handler ctx); isPathValid := isPathValid ctx |}.

(** *** Behaviour of middlewares on a request *)

(** "The stage calls [next()]" and does not fail: it acts on the
    response, calls [next] once, acts on the response again, resolves. *)
Definition calls_next_once (req : Request) (f : Func) : Prop :=
  ∀ w, ∃ before after,
    run f req w = script (map Do before ++ CallNext :: map Do after) Resolved.

(** "The stage fails instead of calling [next()]": it acts on the
    response and rejects with [e]. *)
Definition fails_without_next (req : Request) (e : JSError) (f : Func) : Prop :=
  ∀ w, ∃ ops, run f req w = script (map Do ops) (Rejected e).

(** The response operations of a body up to its first call of [next],
    and after it. *)
Fixpoint ops_before_next (ss : list Step) : list ResOp :=
  match ss with
  | Do op :: ss' => op :: ops_before_next ss'
  | _ => []
  end.

Fixpoint ops_after_next (ss : list Step) : list ResOp :=
  match ss with
  | Do _ :: ss' => ops_after_next ss'
  | CallNext :: ss' => omap (fun s => match s with Do op => Some op | CallNext => None end) ss'
  | [] => []
  end.

(** The trace of a chain of stages that each call [next] once: a stage
    is entered, acts, hands over to the rest of the chain at its call of
    [next], and acts again when that call returns.  [final] is what the
    call of [next] in the last stage does. *)
Fixpoint chain_trace (req : Request) (stages : list Func) (final : World -> World)
    (w : World) : World :=
  match stages with
  | [] => final w
  | f :: rest =>
      let w1 := w ++ [EvCall (fname f)] in
      let ss := steps (run f req w1) in
      chain_trace req rest final (w1 ++ map EvRes (ops_before_next ss))
        ++ map EvRes (ops_after_next ss)
  end.

(** [h(req, res).catch(handleError)] *)
Definition settle (getErrorHandler : GetFunc Func) (env : Env) (req : Request)
    (h : RequestHandler) (w : World) : World :=
  let '(c, w') := h env req w in catch_handleError getErrorHandler env req c w'.

Definition names (l : list Func) : World := map (fun f => EvCall (fname f)) l.

(** *** Sequences of registration calls *)

Inductive Op :=
| OpUse (mws : list Func)
| OpRoute (m : string) (p : RequestPath) (o : OptionsOrMiddlewares) (h : Func).

Definition exec_op (op : Op) : M unit :=
  match op with
  | OpUse mws => flitz_use (map VFunction mws)
  | OpRoute m p o h => flitz_method m (route_args p o h)
  end.

(** The calls of [ops], one after the other. *)
Fixpoint run_ops (ops : list Op) : M unit :=
  match ops with
  | [] => mret tt
  | op :: rest => exec_op op;; run_ops rest
  end.

(** "The complete accumulated global middleware list", in insertion
    order. *)
Fixpoint accumulated_globals (ops : list Op) : list Func :=
  match ops with
  | [] => []
  | OpUse mws :: rest => mws ++ accumulated_globals rest
  | OpRoute _ _ _ _ :: rest => accumulated_globals rest
  end.

(** The routes registered for the method [m], in registration order,
    each with its original handler. *)
Fixpoint registered_routes (m : string) (ops : list Op) : list RequestHandlerContext :=
  match ops with
  | [] => []
  | OpUse _ :: rest => registered_routes m rest
  | OpRoute m' p o h :: rest =>
      if decide (m' = m) then route_of p o h :: registered_routes m rest
      else registered_routes m rest
  end.

(** A bucket after more routes were pushed to it. *)
Definition extend (old : option (list RequestHandlerContext))
    (new : list RequestHandlerContext) : option (list RequestHandlerContext) :=
  match old, new with
  | None, [] => None
  | _, _ => Some (default [] old ++ new)
  end.

(** *** Calls with arbitrary arguments *)

Inductive Call :=
| CallUse (arguments : list JSValue)
| CallMethod (m : string) (arguments : list JSValue).

Definition exec_call (c : Call) : M unit :=
  match c with
  | CallUse arguments => flitz_use arguments
  | CallMethod m arguments => flitz_method m arguments
  end.

(** The calls of a setup script whose author catches every exception:
    the state goes on from wherever a call left it. *)
Definition run_calls (calls : list Call) (st : Server) : Server :=
  fold_left (fun st c => snd (exec_call c st)) calls st.

(** "A sequence of middleware functions". *)
Definition middleware_list (l : list JSValue) : option (list Func) :=
  if forallb is_function l then Some (functions_of l) else None.

(** The forms of [optionsOrMiddlewares] that the specification allows: a
    single middleware function, a sequence of middleware functions, an
    options record with a [use] list; nothing (or a falsy value) stands
    for no options.  An object of another kind has no [use]. *)
Definition classify_options (v : JSValue) : option OptionsOrMiddlewares :=
  match v with
  | VFunction f => Some (SingleMiddleware f)
  | VArray l => MiddlewareList <$> middleware_list l
  | VObject (Some l) => (fun l => OptionsRecord (Some l)) <$> middleware_list l
  | VObject None | VRegExp _ => Some (OptionsRecord None)
  | _ => if truthy v then None else Some NoOptions
  end.

Definition classify_path (v : JSValue) : option RequestPath :=
  match v with
  | VString s => Some (PathString s)
  | VRegExp r => Some (PathRegExp r)
  | VFunction f => Some (PathFunction f)
  | _ => None
  end.

(** The well-formed call that a call with arbitrary arguments amounts
    to, if there is one. *)
Definition accepted (c : Call) : option Op :=
  match c with
  | CallUse arguments => OpUse <$> middleware_list arguments
  | CallMethod m arguments =>
      p ← classify_path (arg arguments 0);
      h ← match handler_arg arguments with VFunction f => Some f | _ => None end;
      o ← classify_options
            (if (length arguments <? 3)%nat then VUndefined else arg arguments 1);
      Some (OpRoute m p o h)
  end.

(** The calls of the error handler in a trace. *)
Definition is_error_call (ev : Event) : bool :=
  match ev with
  | EvCallError _ _ => true
  | _ => false
  end.
Definition error_calls (w : World) : World := List.filter is_error_call w.

(** The server after [app.METHOD(path, ..., h)] followed by
    [app.use(...more)]. *)
Definition register_then_use (st : Server) (m : string) (p : RequestPath)
    (o : OptionsOrMiddlewares) (h : Func) (more : list Func) : Server :=
  snd (flitz_use (map VFunction more) (snd (flitz_method m (route_args p o h) st))).

(** The server after [app.setErrorHandler(eh)]. *)
Definition configured (eh : Func) (st : Server) : Server :=
  snd (flitz_setErrorHandler (VFunction eh) st).

(** *** Files below the root directory *)

(** The key the cache gives to the file at relative path [rel]. *)
Definition key_of (basePath : string) (rel : list string) : string :=
  basePath +:+ (if endsWith basePath "/" then EmptyString else "/") +:+ String.concat "/" rel.

(** The node a relative path leads to, following names from a node. *)
Fixpoint node_at (node : FsNode) (rel : list string) : option FsNode :=
  match rel with
  | [] => Some node
  | name :: rel' =>
      match node with
      | FsDir content =>
          match List.find (fun entry => String.eqb (fst entry) name) content with
          | Some entry => node_at (snd entry) rel'
          | None => None
          end
      | _ => None
      end
  end.

(** "A regular file under rootDir", by its relative path, and its bytes. *)
Definition file_at (content : list (string * FsNode)) (rel : list string)
  : option (list byte) :=
  match node_at (FsDir content) rel with
  | Some (FsFile data) => Some data
  | _ => None
  end.

Definition slash : Ascii.ascii := Ascii.ascii_of_nat 47.

(** File names of a POSIX file system: no "/" inside a name, no name
    twice in a directory. *)
Fixpoint no_slash (s : string) : bool :=
  match s with
  | EmptyString => true
  | String c s' => negb (Ascii.eqb c slash) && no_slash s'
  end.

Fixpoint wf_node (node : FsNode) : Prop :=
  match node with
  | FsDir content =>
      NoDup (map fst content)
      ∧ (fix all (l : list (string * FsNode)) : Prop :=
           match l with
           | [] => True
           | entry :: l' => no_slash (fst entry) = true ∧ wf_node (snd entry) ∧ all l'
           end) content
  | _ => True
  end.

Definition wf_listing (content : list (string * FsNode)) : Prop := wf_node (FsDir content).

(** The regular files below a node reached by [rel], with their relative
    paths, in the order [loadAllFiles] meets them. *)
Fixpoint files_below (node : FsNode) (rel : list string)
  : list (list string * list byte) :=
  match node with
  | FsFile data => [(rel, data)]
  | FsDir content =>
      flat_map (fun entry => files_below (snd entry) (rel ++ [fst entry])) content
  | FsOther => []
  end.

(** One write of [loadAllFiles]: [files[key] = data]. *)
Definition insert_file (basePath : string) (files : FileWithData)
    (file : list string * list byte) : FileWithData :=
  <[key_of basePath (fst file) := snd file]> files.

(** ** Concrete functions and requests used in examples *)

(** [async (req, res, next) => { next(); }] *)
Definition passing (name : string) : Func := {|
  fname := name;
  validate := fun _ => Returns true;
  run := fun _ _ => script [CallNext] Resolved;
  recover := fun _ _ _ => idle
|}.

(** [async (req, res, next) => { next(); next(); }] *)
Definition calling_next_twice (name : string) : Func := {|
  fname := name;
  validate := fun _ => Returns true;
  run := fun _ _ => script [CallNext; CallNext] Resolved;
  recover := fun _ _ _ => idle
|}.

(** [async (req, res) => { res.writeHead(200); res.end(); }]; as a
    validator its promise is a truthy value. *)
Definition responding (name : string) : Func := {|
  fname := name;
  validate := fun _ => Returns true;
  run := fun _ _ => script [Do (WriteHead 200); Do EndResponse] Resolved;
  recover := fun _ _ _ => idle
|}.

(** A function that fails with [err]: called with the request alone,
    as a validator, it throws [err]; called as a handler or a
    middleware it returns a promise rejected with [err]. *)
Definition failing (name : string) (err : JSError) : Func := {|
  fname := name;
  validate := fun _ => Throws err;
  run := fun _ _ => script [] (Rejected err);
  recover := fun _ _ _ => idle
|}.

Definition GET (u : string) : Request := {| method := "GET"; url := u; headers := [] |}.

(** The directory of the specification's example: [a.txt] and [sub/b.txt]. *)
Definition example_root : list (string * FsNode) :=
  [("a.txt", FsFile ["a"%byte]); ("sub", FsDir [("b.txt", FsFile ["b"%byte])])].

(** ** Further vocabulary *)

(** The stage acts on the response and settles with [c], without calling
    [next()]. *)
Definition stops_without_next (req : Request) (c : Completion) (f : Func) : Prop :=
  ∀ w, ∃ ops, run f req w = script (map Do ops) c.

(** The calls [f(req, res)] and [f(req, res, next)] in a trace. *)
Definition is_call (ev : Event) : bool :=
  match ev with
  | EvCall _ => true
  | _ => false
  end.
Definition calls_only (w : World) : World := List.filter is_call w.

(** The first [n] calls a chain can make: the middlewares in array order,
    then the handler once for each further call of [next()]. *)
Definition call_seq (ms : list Func) (H : Func) (n : nat) : World :=
  names (take n ms) ++ replicate (n - length ms) (EvCall (fname H)).

(** The route the dispatcher selects for a request in a table. *)
Definition select (table : RequestHandlersGrouped) (req : Request) : FindResult :=
  match table !! method req with
  | None => NotFound
  | Some bucket => fst (find_ctx req 0 bucket [])
  end.

Definition map_found (f : RequestHandlerContext -> RequestHandlerContext)
    (r : FindResult) : FindResult :=
  match r with
  | Found ctx => Found (f ctx)
  | NotFound => NotFound
  | Threw e => Threw e
  end.

(** The number of status lines written to a response. *)
Definition is_head (ev : Event) : bool :=
  match ev with
  | EvRes (WriteHead _) => true
  | _ => false
  end.
Definition heads (w : World) : World := List.filter is_head w.

(** [async (err, req, res) => { throw err2; }], an error handler that
    fails. *)
Definition raising (name : string) (err : JSError) : Func := {|
  fname := name;
  validate := fun _ => Throws err;
  run := fun _ _ => script [] (Rejected err);
  recover := fun _ _ _ => script [] (Rejected err)
|}.

(** ** The earlier [createServer] and [withMethod] of [server.ts] *)

(** The second half of [server.ts] holds the server as it was before
    global middlewares: no [use], no [static], no compiled table, and a
    [withMethod] that knows arrays and option objects only.
    [mergeHandler], the path validators and the default handlers are
    the same functions. *)
Module Legacy.

(** The variables of [createServer] ([instance] is left out). *)
Record Server := {
  errorHandler : Func;
  groupedHandlers : RequestHandlersGrouped;
  notFoundHandler : Func
}.

Definition M (A : Type) : Type := Server -> Result A * Server.

Global Instance M_ret : MRet M := fun A a st => (Return a, st).
Global Instance M_bind : MBind M := fun A B f m st =>
  match m st with
  | (Return a, st') => f a st'
  | (Throw e, st') => (Throw e, st')
  end.

Definition throw {A} (e : JSError) : M A := fun st => (Throw e, st).
Definition get_state : M Server := fun st => (Return st, st).
Definition set_groupedHandlers (g : RequestHandlersGrouped) : M unit :=
  fun st => (Return tt,
             {| errorHandler := errorHandler st;
                groupedHandlers := g;
                notFoundHandler := notFoundHandler st |}).
Definition set_errorHandler (f : Func) : M unit :=
  fun st => (Return tt,
             {| errorHandler := f;
                groupedHandlers := groupedHandlers st;
                notFoundHandler := notFoundHandler st |}).
Definition set_notFoundHandler (f : Func) : M unit :=
  fun st => (Return tt,
             {| errorHandler := errorHandler st;
                groupedHandlers := groupedHandlers st;
                notFoundHandler := f |}).

Record WithMethodOptions := {
  args : list JSValue;
  getErrorHandler : GetFunc Func;
  opt_method : string
}.

Definition withMethod (opts : WithMethodOptions) : M unit :=
  path ← match arg (args opts) 0 with
         | VString s => mret (PathString s)
         | VRegExp r => mret (PathRegExp r)
         | VFunction f => mret (PathFunction f)
         | _ => throw (TypeError "path must be of type string, function or RegEx")
         end;
  let '(optionsOrMiddlewares, handler) :=
    if (length (args opts) <? 3)%nat
    then (VUndefined, arg (args opts) 1)
    else (arg (args opts) 1, arg (args opts) 2) in
  handler ← match handler with
            | VFunction f => mret f
            | _ => throw (TypeError "Error must be a function")
            end;
  let options :=
    if truthy optionsOrMiddlewares then
      match optionsOrMiddlewares with
      | VArray l => VObject (Some l)
      | _ => optionsOrMiddlewares
      end
    else VObject None in
  (if negb (String.eqb (typeof options) "object")
   then throw (TypeError "optionsOrMiddlewares must be an object or array")
   else mret tt);;
  let use := default [] (get_use options) in
  (if negb (length use =? 0)%nat && negb (forallb is_function use)
   then throw (TypeError "optionsOrMiddlewares must be an array of functions")
   else mret tt);;
  st ← get_state;
  (if groupedHandlers st !! opt_method opts is None
   then set_groupedHandlers (<[opt_method opts := []]> (groupedHandlers st))
   else mret tt);;
  let handler :=
    if negb (length use =? 0)%nat
    then mergeHandler (handler_of handler) (functions_of use) (getErrorHandler opts)
    else handler_of handler in
  let isPathValid :=
    match path with
    | PathFunction f => validate f
    | PathRegExp r => isPathValidByRegex r
    | PathString s => isPathValidByString s
    end in
  st ← get_state;
  set_groupedHandlers
    (<[opt_method opts :=
         default [] (groupedHandlers st !! opt_method opts)
           ++ [{| handler := handler; isPathValid := isPathValid |}]]>
       (groupedHandlers st)).

(** [const getErrorHandler = () => errorHandler] *)
Definition server_getErrorHandler : GetFunc Func := env_errorHandler.

Definition createServer : Server := {|
  errorHandler := defaultErrorHandler;
  groupedHandlers := ∅;
  notFoundHandler := defaultNotFoundHandler
|}.

Definition flitz_method (m : string) (arguments : list JSValue) : M unit :=
  withMethod {| opt_method := m; args := arguments;
                getErrorHandler := server_getErrorHandler |}.

Definition flitz_setErrorHandler (handler : JSValue) : M unit :=
  match handler with
  | VFunction f => set_errorHandler f
  | _ => throw (TypeError "handler must be a function")
  end.

Definition flitz_setNotFoundHandler (handler : JSValue) : M unit :=
  match handler with
  | VFunction f => set_notFoundHandler f
  | _ => throw (TypeError "handler must be a function")
  end.

(** [flitz(req, res)]: the dispatcher reads [groupedHandlers]. *)
Definition flitz (st : Server) (req : Request) (w : World) : Completion * World :=
  dispatch (groupedHandlers st) (notFoundHandler st) (errorHandler st) req w.

(** The calls a setup script can make on the earlier server. *)
Inductive Call :=
| CallMethod (m : string) (arguments : list JSValue)
| CallSetErrorHandler (handler : JSValue)
| CallSetNotFoundHandler (handler : JSValue).

Definition exec_call (c : Call) : M unit :=
  match c with
  | CallMethod m arguments => flitz_method m arguments
  | CallSetErrorHandler handler => flitz_setErrorHandler handler
  | CallSetNotFoundHandler handler => flitz_setNotFoundHandler handler
  end.

(** The calls of a script whose author catches every exception. *)
Definition run_calls (calls : list Call) (st : Server) : Server :=
  fold_left (fun st c => snd (exec_call c st)) calls st.
End Legacy.

(** *** The earlier server and the current one *)

(** The same call on the current server. *)
Definition current_call (c : Legacy.Call) : M unit :=
  match c with
  | Legacy.CallMethod m arguments => flitz_method m arguments
  | Legacy.CallSetErrorHandler handler => flitz_setErrorHandler handler
  | Legacy.CallSetNotFoundHandler handler => flitz_setNotFoundHandler handler
  end.

Definition run_current (calls : list Legacy.Call) (st : Server) : Server :=
  fold_left (fun st c => snd (current_call c st)) calls st.

(** [app.METHOD(path, mw, handler)] with a function as second of three or
    more arguments: the form the current [withMethod] added. *)
Definition single_function_form (c : Legacy.Call) : bool :=
  match c with
  | Legacy.CallMethod _ arguments =>
      negb (length arguments <? 3)%nat && is_function (arg arguments 1)
  | _ => false
  end.

Definition is_throw {A} (r : Result A) : bool :=
  match r with
  | Throw _ => true
  | Return _ => false
  end.

(** A server of the earlier version and one of the current version that
    hold the same routes and handlers, the current one without global
    middlewares. *)
Definition same_server (old : Legacy.Server) (new : Server) : Prop :=
  Legacy.groupedHandlers old = groupedHandlers new
  ∧ Legacy.errorHandler old = errorHandler new
  ∧ Legacy.notFoundHandler old = notFoundHandler new
  ∧ globalMiddleWares new = []
  ∧ compiledHandlers new = groupedHandlers new.
(** * Properties *)

(** ** Running the registration monad *)

Ltac unfold_M :=
  unfold mbind, M_bind, mret, M_ret, throw, get_state, set_groupedHandlers,
    set_compiledHandlers, set_globalMiddleWares, set_errorHandler,
    set_notFoundHandler in *.

Lemma forallb_is_function_map (l : list Func) :
  forallb is_function (map VFunction l) = true.
Proof. induction l as [|f l IH]; simpl; auto. Qed.

Lemma functions_of_map (l : list Func) : functions_of (map VFunction l) = l.
Proof.
  unfold functions_of. induction l as [|f l IH]; simpl; [reflexivity|].
  f_equal. exact IH.
Qed.

(** The checks on the path and on the handler come first in [withMethod]:
    when one of them fails nothing has been assigned yet. *)
Lemma withMethod_bad_path opts st :
  is_path (arg (args opts) 0) = false ->
  withMethod opts st
  = (Throw (TypeError "path must be of type string, function or RegEx"), st).
Proof.
  intros Hp. unfold withMethod.
  destruct (arg (args opts) 0); try discriminate Hp; reflexivity.
Qed.

Lemma withMethod_bad_handler opts st :
  is_path (arg (args opts) 0) = true ->
  is_function (handler_arg (args opts)) = false ->
  withMethod opts st = (Throw (TypeError "handler must be a function"), st).
Proof.
  intros Hp Hh. unfold withMethod, handler_arg in *.
  destruct (arg (args opts) 0); try discriminate Hp;
    (destruct (length (args opts) <? 3)%nat;
     [ destruct (arg (args opts) 1); try discriminate Hh; reflexivity
     | destruct (arg (args opts) 2); try discriminate Hh; reflexivity ]).
Qed.

(** C7. A registration call whose path is neither a string, a pattern
    object nor a function, or whose handler is not callable, throws a
    [TypeError], and the server state after the call is the state before
    it: every bucket of the route table and of the compiled table is
    what it was. *)
Theorem withMethod_invalid_argument_no_mutation (opts : WithMethodOptions) (st : Server) :
  is_path (arg (args opts) 0) = false
  ∨ is_function (handler_arg (args opts)) = false ->
  raises_InvalidArgument (fst (withMethod opts st))
  ∧ snd (withMethod opts st) = st
  ∧ (∀ m, groupedHandlers (snd (withMethod opts st)) !! m = groupedHandlers st !! m)
  ∧ (∀ m, compiledHandlers (snd (withMethod opts st)) !! m = compiledHandlers st !! m).
Proof.
  intros H.
  assert (Hrun : ∃ msg, withMethod opts st = (Throw (TypeError msg), st)).
  { destruct (is_path (arg (args opts) 0)) eqn:Hp.
    - destruct H as [H|H]; [discriminate H|].
      eexists. apply (withMethod_bad_handler opts st Hp H).
    - eexists. apply (withMethod_bad_path opts st Hp). }
  destruct Hrun as [msg ->]. simpl.
  split; [exists msg; reflexivity|]. auto.
Qed.

Lemma withMethod_invalid_argument_no_mutation_witness :
  let opts := {| args := [VNumber 3; VFunction (responding "H")];
                 getErrorHandler := server_getErrorHandler;
                 opt_method := "GET";
                 recompileHandlers := server_recompileHandlers |} in
  raises_InvalidArgument (fst (withMethod opts createServer))
  ∧ snd (withMethod opts createServer) = createServer.
Proof.
  intros opts.
  destruct (withMethod_invalid_argument_no_mutation opts createServer) as (H1 & H2 & _).
  - left. reflexivity.
  - split; assumption.
Defined.

(** ** Registration with two arguments *)

Lemma flitz_method_path_handler m v h st :
  is_path v = true ->
  let raw := <[m := default [] (groupedHandlers st !! m)
                      ++ [{| handler := handler_of h; isPathValid := validator_of v |}]]>
               (if groupedHandlers st !! m is None
                then <[m := []]> (groupedHandlers st) else groupedHandlers st) in
  flitz_method m [v; VFunction h] st
  = (Return tt,
     {| errorHandler := errorHandler st;
        globalMiddleWares := globalMiddleWares st;
        notFoundHandler := notFoundHandler st;
        groupedHandlers := raw;
        compiledHandlers :=
          compileAllWithMiddlewares raw (globalMiddleWares st) server_getErrorHandler |}).
Proof.
  intros Hp raw. subst raw.
  unfold flitz_method, withMethod, server_recompileHandlers.
  destruct v; try discriminate Hp; simpl; unfold_M; simpl;
    destruct (groupedHandlers st !! m) eqn:Hm; simpl; rewrite ?Hm; simpl;
    rewrite ?lookup_insert_eq; reflexivity.
Qed.

Lemma insert_after_init {A} (m : string) (g : gmap string (list A)) (l : list A) :
  <[m := l]> (if g !! m is None then <[m := []]> g else g) = <[m := l]> g.
Proof.
  destruct (g !! m); [reflexivity|]. apply insert_insert_eq.
Qed.

(** C5 (counterexample). Registering a route under the empty string
    does not fail: the call returns and the GET bucket holds one route. *)
Lemma empty_string_path_is_registered :
  let call := flitz_get [VString EmptyString; VFunction (responding "H")] in
  ¬ raises_InvalidArgument (fst (call createServer))
  ∧ length <$> (groupedHandlers (snd (call createServer)) !! "GET") = Some 1%nat.
Proof.
  intros call. subst call. unfold flitz_get.
  rewrite flitz_method_path_handler by reflexivity. simpl. split.
  - intros [msg H]. discriminate H.
  - rewrite lookup_insert_eq. reflexivity.
Qed.

(** C5 (amended). The path check of a registration call looks at the
    type only.  A call whose path is not a string, a pattern object or a
    function throws a [TypeError], whatever its other arguments, and
    leaves the state untouched; a path that is one of these, the empty
    string included, is accepted, and with a callable handler its route
    is appended to the bucket of the method. *)
Theorem registration_path_check
    (m : string) (v : JSValue) (rest : list JSValue) (h : Func) (st : Server) :
  is_path (VString EmptyString) = true
  ∧ if is_path v
    then fst (flitz_method m [v; VFunction h] st) = Return tt
         ∧ groupedHandlers (snd (flitz_method m [v; VFunction h] st)) !! m
           = Some (default [] (groupedHandlers st !! m)
                     ++ [{| handler := handler_of h; isPathValid := validator_of v |}])
    else raises_InvalidArgument (fst (flitz_method m (v :: rest) st))
         ∧ snd (flitz_method m (v :: rest) st) = st.
Proof.
  split; [reflexivity|].
  destruct (is_path v) eqn:Hp.
  - rewrite flitz_method_path_handler by exact Hp. simpl.
    split; [reflexivity|]. rewrite insert_after_init. apply lookup_insert_eq.
  - unfold flitz_method. rewrite withMethod_bad_path by exact Hp. simpl.
    split; [eexists; reflexivity | reflexivity].
Qed.

(** ** String paths *)

(** C6 (counterexample). The request [GET /foo?x=1] has path [/foo], yet
    the validator of a route registered under ["/foo"] returns false. *)
Lemma string_validator_sees_query :
  let req := GET "/foo?x=1" in
  url_path (url req) = "/foo"
  ∧ ¬ (isPathValidByString "/foo" req = Returns true ↔ url_path (url req) = "/foo").
Proof.
  intros req. split; [reflexivity|].
  intros [_ H]. specialize (H eq_refl). discriminate H.
Qed.

(** C6 (amended). The validator of a route registered with the string
    [s] never throws and returns true exactly when [req.url], the raw
    request target with its query string, is [s]; the method and the
    headers of the request play no part. *)
Theorem string_route_matches_raw_url (m s : string) (h : Func) (st : Server) (req : Request) :
  ∃ ctx,
    last <$> groupedHandlers (snd (flitz_method m [VString s; VFunction h] st)) !! m
    = Some (Some ctx)
    ∧ isPathValid ctx req = Returns (String.eqb (url req) s)
    ∧ (isPathValid ctx req = Returns true ↔ url req = s)
    ∧ ∀ req', url req' = url req -> isPathValid ctx req' = isPathValid ctx req.
Proof.
  exists {| handler := handler_of h; isPathValid := isPathValidByString s |}.
  rewrite flitz_method_path_handler by reflexivity. simpl.
  rewrite insert_after_init, lookup_insert_eq. simpl.
  rewrite last_snoc. split; [reflexivity|].
  unfold isPathValidByString. split; [reflexivity|]. split.
  - split.
    + intros H. apply String.eqb_eq. congruence.
    + intros ->. rewrite String.eqb_refl. reflexivity.
  - intros req' ->. reflexivity.
Qed.

(** ** The dispatcher *)

Lemma find_ctx_first_match req bucket : ∀ k ctx base w,
  first_match_at req bucket k ctx ->
  find_ctx req base bucket w = (Found ctx, w ++ map EvTest (seq base (S k))).
Proof.
  induction bucket as [|c bucket IH]; intros k ctx base w (Hk & Ht & Hbefore).
  - rewrite lookup_nil in Hk. discriminate Hk.
  - destruct k as [|k].
    + simpl in Hk. injection Hk as ->. simpl. rewrite Ht. reflexivity.
    + simpl. rewrite (Hbefore 0%nat c) by (lia || reflexivity).
      rewrite (IH k ctx (S base)).
      * unfold log. rewrite <- app_assoc. reflexivity.
      * split; [exact Hk|]. split; [exact Ht|].
        intros j c' Hj Hc'. apply (Hbefore (S j)); [lia | exact Hc'].
Qed.


Lemma find_ctx_first_throw req bucket : ∀ k e base w,
  first_throw_at req bucket k e ->
  find_ctx req base bucket w = (Threw e, w ++ map EvTest (seq base (S k))).
Proof.
  induction bucket as [|c bucket IH]; intros k e base w ((ctx & Hk & Ht) & Hbefore).
  - rewrite lookup_nil in Hk. discriminate Hk.
  - destruct k as [|k].
    + simpl in Hk. injection Hk as ->. simpl. rewrite Ht. reflexivity.
    + simpl. rewrite (Hbefore 0%nat c) by (lia || reflexivity).
      rewrite (IH k e (S base)).
      * unfold log. rewrite <- app_assoc. reflexivity.
      * split; [exists ctx; split; assumption|].
        intros j c' Hj Hc'. apply (Hbefore (S j)); [lia | exact Hc'].
Qed.


Lemma dispatch_first_match table nf eh req w bucket k ctx :
  table !! method req = Some bucket ->
  first_match_at req bucket k ctx ->
  dispatch table nf eh req w
  = await_or_catch eh req (handler ctx {| env_errorHandler := eh |} req (w ++ tests (S k))).
Proof.
  intros Hb Hfirst. unfold dispatch. rewrite Hb.
  rewrite (find_ctx_first_match req bucket k ctx 0 w Hfirst).
  unfold await_or_catch, tests.
  destruct (handler ctx _ req _) as [[|e] w']; reflexivity.
Qed.



Lemma dispatch_first_throw table nf eh req w bucket k e :
  table !! method req = Some bucket ->
  first_throw_at req bucket k e ->
  dispatch table nf eh req w = call_error_handler eh e req (w ++ tests (S k)).
Proof.
  intros Hb Hthrow. unfold dispatch. rewrite Hb.
  rewrite (find_ctx_first_throw req bucket k e 0 w Hthrow). reflexivity.
Qed.



(** A function called without [next] can only act on the response. *)
Lemma run_steps_without_next ss : ∀ c w,
  ∃ ops c', run_steps log None ss c w = (c', w ++ map EvRes ops).
Proof.
  induction ss as [|[op|] ss IH]; intros c w; simpl.
  - exists [], c. rewrite app_nil_r. reflexivity.
  - destruct (IH c (log (EvRes op) w)) as (ops & c' & ->).
    exists (op :: ops), c'. unfold log. rewrite <- app_assoc. reflexivity.
  - exists [], (Rejected (TypeError "next is not a function")).
    rewrite app_nil_r. reflexivity.
Qed.

Lemma call_error_handler_trace f e req w :
  ∃ ops c, call_error_handler f e req w
           = (c, w ++ EvCallError (fname f) e :: map EvRes ops).
Proof.
  unfold call_error_handler, run_script.
  destruct (run_steps_without_next (steps (recover f e req (log (EvCallError (fname f) e) w)))
              (completion (recover f e req (log (EvCallError (fname f) e) w)))
              (log (EvCallError (fname f) e) w)) as (ops & c & ->).
  exists ops, c. unfold log. rewrite <- app_assoc. reflexivity.
Qed.

Lemma call_handler_trace f req w :
  ∃ ops c, call_handler f req w = (c, w ++ EvCall (fname f) :: map EvRes ops).
Proof.
  unfold call_handler, call, run_script.
  destruct (run_steps_without_next (steps (run f req (log (EvCall (fname f)) w)))
              (completion (run f req (log (EvCall (fname f)) w)))
              (log (EvCall (fname f)) w)) as (ops & c & ->).
  exists ops, c. unfold log. rewrite <- app_assoc. reflexivity.
Qed.

(** *** Projections of a trace *)

Lemma invocations_app w1 w2 : invocations (w1 ++ w2) = invocations w1 ++ invocations w2.
Proof. unfold invocations. induction w1 as [|ev w1 IH]; simpl; [reflexivity|].
  destruct (is_invocation ev); simpl; rewrite IH; reflexivity. Qed.

Lemma invocations_res ops : invocations (map EvRes ops) = [].
Proof. induction ops as [|op ops IH]; simpl; [reflexivity | exact IH]. Qed.

Lemma invocations_tests n : ∀ k, invocations (map EvTest (seq k n)) = [].
Proof. induction n as [|n IH]; intros k; simpl; [reflexivity | apply IH]. Qed.

Lemma evaluations_app w1 w2 : evaluations (w1 ++ w2) = evaluations w1 ++ evaluations w2.
Proof. unfold evaluations. induction w1 as [|ev w1 IH]; simpl; [reflexivity|].
  destruct (is_evaluation ev); simpl; rewrite IH; reflexivity. Qed.

Lemma evaluations_tests n : ∀ k, evaluations (map EvTest (seq k n)) = map EvTest (seq k n).
Proof. induction n as [|n IH]; intros k; simpl; [reflexivity|]. f_equal. apply IH. Qed.

Lemma evaluations_res ops : evaluations (map EvRes ops) = [].
Proof. induction ops as [|op ops IH]; simpl; [reflexivity | exact IH]. Qed.

(** C10. When the scan of the method bucket reaches a route whose
    validator throws [e], the dispatcher calls the current error handler
    with [e]: the trace of the request shows the evaluations up to that
    route, then the call of the error handler and what that handler does
    to the response.  The validators evaluated are those of the routes
    0 to k, none after the throwing one, and no route handler is
    called. *)
Theorem matcher_failure_goes_to_error_handler
    (st : Server) (req : Request) (w : World)
    (bucket : list RequestHandlerContext) (k : nat) (e : JSError) :
  compiledHandlers st !! method req = Some bucket ->
  first_throw_at req bucket k e ->
  flitz st req w = call_error_handler (errorHandler st) e req (w ++ tests (S k))
  ∧ (∃ ops, snd (flitz st req w)
            = w ++ tests (S k)
              ++ EvCallError (fname (errorHandler st)) e :: map EvRes ops)
  ∧ evaluations (snd (flitz st req w)) = evaluations w ++ tests (S k)
  ∧ invocations (snd (flitz st req w))
    = invocations w ++ [EvCallError (fname (errorHandler st)) e].
Proof.
  intros Hb Hthrow. unfold flitz.
  rewrite (dispatch_first_throw _ _ _ req w bucket k e Hb Hthrow).
  split; [reflexivity|].
  destruct (call_error_handler_trace (errorHandler st) e req (w ++ tests (S k)))
    as (ops & c & ->).
  cbn [snd]. rewrite <- app_assoc. split; [exists ops; reflexivity|]. split.
  - rewrite !evaluations_app. unfold tests at 1. rewrite evaluations_tests.
    cbn [evaluations List.filter is_evaluation]. fold (evaluations (map EvRes ops)).
    rewrite evaluations_res, app_nil_r. reflexivity.
  - rewrite !invocations_app. unfold tests. rewrite invocations_tests.
    cbn [invocations List.filter is_invocation]. fold (invocations (map EvRes ops)).
    rewrite invocations_res. reflexivity.
Qed.

Lemma matcher_failure_goes_to_error_handler_witness :
  let st := snd (flitz_get [VFunction (failing "p" (Failure "boom"));
                            VFunction (responding "H")] createServer) in
  invocations (snd (flitz st (GET "/x") []))
  = [] ++ [EvCallError "defaultErrorHandler" (Failure "boom")].
Proof.
  intros st.
  apply (matcher_failure_goes_to_error_handler st (GET "/x") []
           [{| handler := handler_of (responding "H");
               isPathValid := validate (failing "p" (Failure "boom")) |}]
           0%nat (Failure "boom")).
  - reflexivity.
  - split.
    + eexists. split; reflexivity.
    + intros j c Hj. lia.
Defined.

(** ** Chains of middlewares *)

Lemma ops_before_next_split before rest :
  ops_before_next (map Do before ++ CallNext :: rest) = before.
Proof. induction before as [|op l IH]; simpl; [reflexivity|]. f_equal. exact IH. Qed.

Lemma ops_after_next_split before after :
  ops_after_next (map Do before ++ CallNext :: map Do after) = after.
Proof.
  induction before as [|op l IH]; simpl; [|exact IH].
  induction after as [|op l IH]; simpl; [reflexivity|]. f_equal. exact IH.
Qed.

Section Frames.
Context (nx : option (Frame -> Frame)).

Lemma run_steps_frame_do ops : ∀ ss c fr,
  run_steps frame_emit nx (map Do ops ++ ss) c fr
  = run_steps frame_emit nx ss c {| i := i fr; res := res fr ++ map EvRes ops |}.
Proof.
  induction ops as [|op ops IH]; intros ss c fr; simpl.
  - rewrite app_nil_r. destruct fr; reflexivity.
  - rewrite IH. simpl. unfold log. rewrite <- app_assoc. reflexivity.
Qed.

Lemma run_steps_frame_only_do ops c fr :
  run_steps frame_emit nx (map Do ops) c fr
  = (c, {| i := i fr; res := res fr ++ map EvRes ops |}).
Proof.
  rewrite <- (app_nil_r (map Do ops)). rewrite run_steps_frame_do. reflexivity.
Qed.
End Frames.

Section Chain.
Context (h : RequestHandler) (ms : list Func) (ge : GetFunc Func).
Context (env : Env) (req : Request).

Abbreviation next_ms := (next h ms ge env req).

Lemma array_get_middle {A} (l1 : list A) (x : A) (l2 : list A) :
  array_get (l1 ++ x :: l2) (Z.of_nat (length l1) - 1 + 1) = Some x.
Proof.
  unfold array_get.
  replace (Z.of_nat (length l1) - 1 + 1) with (Z.of_nat (length l1)) by lia.
  destruct (Z.of_nat (length l1) <? 0) eqn:E; [apply Z.ltb_lt in E; lia|].
  rewrite Nat2Z.id. rewrite lookup_app_r by lia.
  rewrite Nat.sub_diag. reflexivity.
Qed.

Lemma array_get_end {A} (l : list A) :
  array_get l (Z.of_nat (length l) - 1 + 1) = None.
Proof.
  unfold array_get.
  replace (Z.of_nat (length l) - 1 + 1) with (Z.of_nat (length l)) by lia.
  destruct (Z.of_nat (length l) <? 0); [reflexivity|].
  rewrite Nat2Z.id. apply lookup_ge_None. lia.
Qed.

(** Past the last middleware, [next] calls the handler. *)
Lemma next_at_end depth w :
  res (next_ms depth {| i := Z.of_nat (length ms) - 1; res := w |}) = settle ge env req h w.
Proof.
  unfold settle. destruct depth; simpl; rewrite array_get_end;
    destruct (h env req w) as [c w']; reflexivity.
Qed.

(** A prefix of stages that each call [next] once is run in order; what
    the last of them reaches through [next] is the rest of the array. *)
Lemma next_cooperative_prefix coop : ∀ pre tail depth fr,
  ms = pre ++ coop ++ tail ->
  i fr = Z.of_nat (length pre) - 1 ->
  Forall (calls_next_once req) coop ->
  (length coop <= depth)%nat ->
  res (next_ms depth fr)
  = chain_trace req coop
      (fun w => res (next_ms (depth - length coop)
                       {| i := Z.of_nat (length (pre ++ coop)) - 1; res := w |}))
      (res fr).
Proof.
  induction coop as [|f coop IH]; intros pre tail depth fr Hms Hi Hcoop Hdepth.
  - simpl. rewrite Nat.sub_0_r, app_nil_r. rewrite <- Hi. destruct fr; reflexivity.
  - destruct depth as [|depth]; [simpl in Hdepth; lia|].
    apply Forall_cons in Hcoop as [Hf Hrest]. subst ms.
    simpl next. rewrite Hi.
    rewrite array_get_middle.
    unfold call, run_script. simpl.
    destruct (Hf (log (EvCall (fname f)) (res fr))) as (before & after & Hrun).
    unfold log in *. rewrite Hrun. simpl.
    rewrite ops_before_next_split, ops_after_next_split.
    rewrite run_steps_frame_do. simpl.
    rewrite run_steps_frame_only_do. simpl.
    rewrite (IH (pre ++ [f]) tail depth).
    + simpl. rewrite <- app_assoc. simpl. reflexivity.
    + rewrite <- app_assoc. reflexivity.
    + simpl. rewrite length_app. simpl. lia.
    + exact Hrest.
    + simpl in Hdepth. lia.
Qed.
End Chain.

Lemma run_steps_log_only_do nx ops : ∀ c w,
  run_steps log nx (map Do ops) c w = (c, w ++ map EvRes ops).
Proof.
  induction ops as [|op ops IH]; intros c w; simpl.
  - rewrite app_nil_r. reflexivity.
  - rewrite IH. unfold log. rewrite <- app_assoc. reflexivity.
Qed.

Lemma chain_trace_ext req l : ∀ final1 final2 w,
  (∀ w', final1 w' = final2 w') ->
  chain_trace req l final1 w = chain_trace req l final2 w.
Proof.
  induction l as [|f l IH]; intros final1 final2 w H; simpl.
  - apply H.
  - f_equal. apply IH. exact H.
Qed.

(** Composition of chains is associative. *)
Lemma chain_trace_app req l1 l2 final : ∀ w,
  chain_trace req (l1 ++ l2) final w
  = chain_trace req l1 (chain_trace req l2 final) w.
Proof.
  induction l1 as [|f l1 IH]; intros w; simpl; [reflexivity|].
  rewrite IH. reflexivity.
Qed.

Section MergedChains.
Context (h : RequestHandler) (ge : GetFunc Func) (env : Env) (req : Request).

(** Every middleware calls [next] once: the chain runs them in order and
    the last one hands over to the handler. *)
Lemma mergeHandler_cooperative ms w :
  Forall (calls_next_once req) ms ->
  mergeHandler h ms ge env req w
  = (Resolved, chain_trace req ms (settle ge env req h) w).
Proof.
  intros Hms. unfold mergeHandler. f_equal.
  rewrite (next_cooperative_prefix h ms ge env req ms [] [] (length ms));
    [ | rewrite app_nil_r; reflexivity | reflexivity | exact Hms | lia ].
  simpl. apply chain_trace_ext. intros w'.
  rewrite Nat.sub_diag. apply next_at_end.
Qed.

(** A middleware that rejects without calling [next] ends the chain:
    the middlewares after it and the handler play no part, the chain is
    the one that has the failing middleware as its handler. *)
Lemma mergeHandler_failing ms coop f tail e w :
  ms = coop ++ f :: tail ->
  Forall (calls_next_once req) coop ->
  fails_without_next req e f ->
  mergeHandler h ms ge env req w
  = (Resolved, chain_trace req coop (settle ge env req (handler_of f)) w).
Proof.
  intros Hms Hcoop Hf. unfold mergeHandler. f_equal.
  rewrite (next_cooperative_prefix h ms ge env req coop [] (f :: tail) (length ms));
    [ | exact Hms | reflexivity | exact Hcoop | subst ms; rewrite length_app; lia ].
  simpl. apply chain_trace_ext. intros w'.
  replace (length ms - length coop)%nat with (S (length tail))
    by (subst ms; rewrite length_app; simpl; lia).
  simpl next. subst ms. rewrite array_get_middle.
  unfold settle, handler_of, call_handler, call, run_script. simpl.
  destruct (Hf (log (EvCall (fname f)) w')) as (ops & Hrun).
  rewrite Hrun. simpl.
  rewrite run_steps_frame_only_do, run_steps_log_only_do. reflexivity.
Qed.
End MergedChains.

(** *** Calls made by a chain *)

Lemma invocations_chain_trace req l final calls :
  (∀ w, invocations (final w) = invocations w ++ calls) ->
  ∀ w, invocations (chain_trace req l final w) = invocations w ++ names l ++ calls.
Proof.
  intros Hfinal. induction l as [|f l IH]; intros w; simpl.
  - apply Hfinal.
  - rewrite invocations_app, IH, !invocations_app, !invocations_res. simpl.
    rewrite !app_nil_r, <- !app_assoc. reflexivity.
Qed.

Lemma invocations_call_handler f req w :
  invocations (snd (call_handler f req w)) = invocations w ++ [EvCall (fname f)].
Proof.
  destruct (call_handler_trace f req w) as (ops & c & ->). simpl.
  rewrite invocations_app. simpl. rewrite invocations_res. reflexivity.
Qed.

Lemma invocations_catch ge env req e w :
  invocations (catch_handleError ge env req (Rejected e) w)
  = invocations w ++ [EvCallError (fname (ge env)) e].
Proof.
  unfold catch_handleError.
  destruct (call_error_handler_trace (ge env) e req w) as (ops & c & ->).
  destruct c; unfold log; rewrite ?invocations_app; simpl;
    rewrite invocations_res; simpl; rewrite ?app_nil_r; reflexivity.
Qed.

(** ** Registration and recompilation *)

Lemma with_globals_nil ctx : with_globals [] ctx = ctx.
Proof. destruct ctx; reflexivity. Qed.

Lemma map_with_globals_nil l : map (with_globals []) l = l.
Proof.
  induction l as [|c l IH]; simpl; [reflexivity|].
  rewrite with_globals_nil. f_equal. exact IH.
Qed.

(** Every bucket of the compiled table is the bucket of the raw table
    with each handler wrapped once with [gs]. *)
Lemma compile_lookup g gs m :
  compileAllWithMiddlewares g gs server_getErrorHandler !! m
  = map (with_globals gs) <$> (g !! m).
Proof.
  unfold compileAllWithMiddlewares. destruct gs as [|g0 gs]; simpl.
  - destruct (g !! m) as [l|]; simpl; [|reflexivity].
    rewrite map_with_globals_nil. reflexivity.
  - rewrite lookup_fmap. reflexivity.
Qed.

Lemma compile_nil g ge : compileAllWithMiddlewares g [] ge = g.
Proof. reflexivity. Qed.

Lemma flitz_method_route m p o h st :
  let raw := <[m := default [] (groupedHandlers st !! m) ++ [route_of p o h]]>
               (groupedHandlers st) in
  flitz_method m (route_args p o h) st
  = (Return tt,
     {| errorHandler := errorHandler st;
        globalMiddleWares := globalMiddleWares st;
        notFoundHandler := notFoundHandler st;
        groupedHandlers := raw;
        compiledHandlers :=
          compileAllWithMiddlewares raw (globalMiddleWares st) server_getErrorHandler |}).
Proof.
  intros raw. subst raw.
  rewrite <- (insert_after_init m (groupedHandlers st)).
  unfold flitz_method, withMethod, server_recompileHandlers, route_of.
  destruct o as [|f|l|[l|]]; try destruct l as [|f l];
    destruct p; simpl; unfold_M; simpl;
    rewrite ?forallb_is_function_map; simpl;
    destruct (groupedHandlers st !! m) eqn:Hm; simpl; rewrite ?Hm; simpl;
    rewrite ?lookup_insert_eq;
    try reflexivity.
  all: fold (functions_of (map VFunction l)); rewrite functions_of_map; reflexivity.
Qed.

Lemma flitz_use_functions mws st :
  flitz_use (map VFunction mws) st
  = (Return tt,
     {| errorHandler := errorHandler st;
        globalMiddleWares := globalMiddleWares st ++ mws;
        notFoundHandler := notFoundHandler st;
        groupedHandlers := groupedHandlers st;
        compiledHandlers :=
          compileAllWithMiddlewares (groupedHandlers st) (globalMiddleWares st ++ mws)
            server_getErrorHandler |}).
Proof.
  unfold flitz_use, server_recompileHandlers. unfold_M.
  rewrite forallb_is_function_map, functions_of_map. reflexivity.
Qed.

Lemma extend_app old new1 new2 :
  extend (extend old new1) new2 = extend old (new1 ++ new2).
Proof.
  destruct old as [l|], new1 as [|c1 new1], new2 as [|c2 new2]; simpl;
    rewrite ?app_nil_r, <- ?app_assoc; reflexivity.
Qed.

Lemma extend_nil old : extend old [] = old.
Proof. destruct old; simpl; rewrite ?app_nil_r; reflexivity. Qed.

(** What a sequence of calls makes of any state. *)
Lemma run_ops_state ops : ∀ st,
  ∃ st', run_ops ops st = (Return tt, st')
    ∧ errorHandler st' = errorHandler st
    ∧ notFoundHandler st' = notFoundHandler st
    ∧ globalMiddleWares st' = globalMiddleWares st ++ accumulated_globals ops
    ∧ (∀ m, groupedHandlers st' !! m
            = extend (groupedHandlers st !! m) (registered_routes m ops))
    ∧ (ops ≠ [] ->
       compiledHandlers st'
       = compileAllWithMiddlewares (groupedHandlers st') (globalMiddleWares st')
           server_getErrorHandler).
Proof.
  induction ops as [|op ops IH]; intros st.
  - exists st. simpl. rewrite app_nil_r.
    repeat split; try reflexivity; [|congruence].
    intros m. rewrite extend_nil. reflexivity.
  - simpl run_ops.
    assert (Hop : ∃ st1, exec_op op st = (Return tt, st1)
              ∧ errorHandler st1 = errorHandler st
              ∧ notFoundHandler st1 = notFoundHandler st
              ∧ globalMiddleWares st1
                = globalMiddleWares st ++ accumulated_globals [op]
              ∧ (∀ m, groupedHandlers st1 !! m
                      = extend (groupedHandlers st !! m) (registered_routes m [op]))
              ∧ compiledHandlers st1
                = compileAllWithMiddlewares (groupedHandlers st1) (globalMiddleWares st1)
                    server_getErrorHandler).
    { destruct op as [mws|m p o h]; simpl exec_op.
      - eexists. split; [apply flitz_use_functions|]. simpl.
        rewrite app_nil_r. repeat split; try reflexivity.
        intros m. rewrite extend_nil. reflexivity.
      - eexists. split; [apply flitz_method_route|]. simpl.
        rewrite app_nil_r. repeat split; try reflexivity.
        intros m'. destruct (decide (m = m')) as [->|Hne].
        + rewrite lookup_insert_eq.
          destruct (groupedHandlers st !! m'); reflexivity.
        + rewrite lookup_insert_ne by exact Hne. rewrite extend_nil. reflexivity. }
    destruct Hop as (st1 & Hrun & He1 & Hn1 & Hg1 & Hr1 & Hc1).
    destruct (IH st1) as (st' & Hrun' & He & Hn & Hg & Hr & Hc).
    exists st'. split.
    { unfold mbind, M_bind. rewrite Hrun. exact Hrun'. }
    split; [congruence|]. split; [congruence|]. split.
    { rewrite Hg, Hg1. rewrite <- app_assoc. f_equal.
      destruct op; simpl; rewrite ?app_nil_r; reflexivity. }
    split.
    { intros m. rewrite Hr, Hr1, extend_app. f_equal.
      destruct op as [mws|m' p o h]; simpl; [reflexivity|].
      destruct (decide (m' = m)); reflexivity. }
    intros _. destruct ops as [|op' ops].
    { simpl in Hrun'. injection Hrun' as <-. exact Hc1. }
    apply Hc. discriminate.
Qed.

(** *** Calls with arbitrary arguments *)

Lemma map_functions_of l :
  forallb is_function l = true -> map VFunction (functions_of l) = l.
Proof.
  unfold functions_of. induction l as [|v l IH]; simpl; [reflexivity|].
  intros H. apply andb_prop in H as [Hv Hl].
  destruct v; try discriminate Hv. simpl. f_equal. apply IH. exact Hl.
Qed.

Lemma exec_call_use_accepted arguments mws st :
  middleware_list arguments = Some mws ->
  flitz_use arguments st = flitz_use (map VFunction mws) st.
Proof.
  unfold middleware_list. destruct (forallb is_function arguments) eqn:H; [|discriminate].
  intros [= <-]. rewrite map_functions_of by exact H. reflexivity.
Qed.

Lemma exec_call_use_rejected arguments st :
  middleware_list arguments = None ->
  flitz_use arguments st
  = (Throw (TypeError "middlewares must be a list of functions"), st).
Proof.
  unfold middleware_list. destruct (forallb is_function arguments) eqn:H; [discriminate|].
  intros _. unfold flitz_use. unfold_M. rewrite H. reflexivity.
Qed.

Ltac case_scrutinee :=
  match goal with
  | |- context [match ?x with _ => _ end] =>
      lazymatch x with
      | context [match _ with _ => _ end] => fail
      | _ => destruct x eqn:?
      end
  | H : context [match ?x with _ => _ end] |- _ =>
      lazymatch x with
      | context [match _ with _ => _ end] => fail
      | _ => destruct x eqn:?
      end
  end.

Lemma exec_call_method_rejected m arguments st :
  accepted (CallMethod m arguments) = None ->
  ∃ msg, flitz_method m arguments st = (Throw (TypeError msg), st).
Proof.
  unfold accepted, flitz_method, withMethod, handler_arg, classify_path, classify_options,
    middleware_list.
  intros H. unfold_M. simpl in *.
  repeat (case_scrutinee; simpl in *; try discriminate; try (eexists; reflexivity)).
  all: match goal with
       | H1 : forallb is_function ?l = false,
         H2 : negb (length ?l =? 0)%nat = false |- _ =>
           destruct l; simpl in *; discriminate
       end.
Qed.

Lemma wrap_with_functions_of h l :
  forallb is_function l = true ->
  (if negb (length l =? 0)%nat
   then mergeHandler h (functions_of l) server_getErrorHandler else h)
  = wrap_with (functions_of l) h.
Proof.
  destruct l as [|v l]; [reflexivity|]. simpl. intros H.
  apply andb_prop in H as [Hv _].
  destruct v; try discriminate Hv. reflexivity.
Qed.

Lemma exec_call_method_accepted m arguments op st :
  accepted (CallMethod m arguments) = Some op ->
  flitz_method m arguments st = exec_op op st.
Proof.
  unfold accepted, handler_arg, classify_path, classify_options, middleware_list.
  intros H. simpl in H.
  assert (∃ p o h, op = OpRoute m p o h) as (p & o & h & ->).
  { repeat (case_scrutinee; simpl in *; try discriminate);
      injection H as <-; eauto. }
  simpl exec_op. rewrite flitz_method_route. cbv zeta.
  rewrite <- (insert_after_init m (groupedHandlers st)).
  unfold flitz_method, withMethod, server_recompileHandlers, route_of.
  unfold_M. cbn [args opt_method getErrorHandler recompileHandlers].
  destruct (arg arguments 0) eqn:H0; simpl in H; try discriminate H;
    (destruct (length arguments <? 3)%nat eqn:Hlen; simpl in H |- *;
     [ destruct (arg arguments 1) eqn:H1; simpl in H; try discriminate H;
       simplify_eq/=;
       destruct (groupedHandlers st !! m) eqn:Hm; simpl; rewrite ?Hm; simpl;
       rewrite ?lookup_insert_eq; reflexivity
     | destruct (arg arguments 2) eqn:H2; simpl in H; try discriminate H;
       destruct (arg arguments 1) as [| |b|n|s0| | |l|[l|]] eqn:H1; simpl in H |- *;
       try destruct b; try destruct (n =? 0) eqn:Hn;
       try destruct (String.eqb s0 EmptyString) eqn:Hs0;
       try destruct (forallb is_function l) eqn:Hl;
       simpl in H |- *; try discriminate H;
       simplify_eq/=;
       rewrite ?Hl; rewrite ?andb_false_r; simpl;
       rewrite ?(wrap_with_functions_of _ l Hl);
       destruct (groupedHandlers st !! m) eqn:Hm; simpl; rewrite ?Hm; simpl;
       rewrite ?lookup_insert_eq;
       reflexivity ]).
Qed.

(** A call with arbitrary arguments is the well-formed call it amounts
    to, or it throws a [TypeError] and leaves the state as it was. *)
Lemma exec_call_sound c st :
  match accepted c with
  | Some op => exec_call c st = exec_op op st
  | None => ∃ msg, exec_call c st = (Throw (TypeError msg), st)
  end.
Proof.
  destruct (accepted c) as [op|] eqn:Hacc.
  - destruct c as [arguments|m arguments]; simpl in *.
    + destruct (middleware_list arguments) as [mws|] eqn:Hm; [|discriminate Hacc].
      injection Hacc as <-. simpl. apply exec_call_use_accepted. exact Hm.
    + apply exec_call_method_accepted. exact Hacc.
  - destruct c as [arguments|m arguments]; simpl in *.
    + destruct (middleware_list arguments) eqn:Hm; [discriminate Hacc|].
      eexists. apply exec_call_use_rejected. exact Hm.
    + apply exec_call_method_rejected. exact Hacc.
Qed.

Lemma exec_op_returns op st : fst (exec_op op st) = Return tt.
Proof.
  destruct op as [mws|m p o h]; simpl.
  - rewrite flitz_use_functions. reflexivity.
  - rewrite flitz_method_route. reflexivity.
Qed.

Lemma run_calls_accepted calls : ∀ st,
  run_calls calls st = snd (run_ops (omap accepted calls) st).
Proof.
  unfold run_calls. induction calls as [|c calls IH]; intros st; [reflexivity|].
  simpl. pose proof (exec_call_sound c st) as Hc.
  destruct (accepted c) as [op|].
  - rewrite Hc, IH. simpl. unfold mbind, M_bind.
    pose proof (exec_op_returns op st) as Hret.
    destruct (exec_op op st) as [[[]|e] st1]; [reflexivity | discriminate Hret].
  - destruct Hc as [msg ->]. simpl. apply IH.
Qed.

(** C3. Take any sequence of [use()] and registration calls on a new
    server, with arguments of any kind; a call either amounts to a
    well-formed call and returns, or throws and leaves the state as it
    was.  After the sequence the global list is the concatenation of the
    arguments of the accepted [use()] calls in call order, the raw table
    holds for each method the accepted routes in order with their
    original handlers, and each bucket of the compiled table is the raw
    bucket with every handler wrapped once with that complete global
    list. *)
Theorem compiled_table_after_any_sequence (calls : list Call) :
  let st := run_calls calls createServer in
  let ops := omap accepted calls in
  (∀ c st0, match accepted c with
            | Some op => exec_call c st0 = exec_op op st0
                         ∧ fst (exec_call c st0) = Return tt
            | None => raises_InvalidArgument (fst (exec_call c st0))
                      ∧ snd (exec_call c st0) = st0
            end)
  ∧ globalMiddleWares st = accumulated_globals ops
  ∧ ∀ m,
      groupedHandlers st !! m = extend None (registered_routes m ops)
      ∧ compiledHandlers st !! m
        = map (with_globals (accumulated_globals ops))
            <$> extend None (registered_routes m ops).
Proof.
  intros st ops. split.
  { intros c st0. pose proof (exec_call_sound c st0) as Hc.
    destruct (accepted c) as [op|].
    - split; [exact Hc|]. rewrite Hc. apply exec_op_returns.
    - destruct Hc as [msg ->]. split; [exists msg|]; reflexivity. }
  subst st. rewrite run_calls_accepted. fold ops.
  destruct (run_ops_state ops createServer) as (st' & Hrun & _ & _ & Hg & Hr & Hc).
  rewrite Hrun. simpl. split; [exact Hg|].
  intros m. split; [rewrite Hr; reflexivity|].
  destruct ops as [|op ops'] eqn:Hops.
  - simpl in Hrun. injection Hrun as <-. reflexivity.
  - rewrite Hc by discriminate. rewrite compile_lookup, Hr, Hg. reflexivity.
Qed.

Lemma compiled_table_after_any_sequence_witness :
  let calls := [CallMethod "GET" [VString "/a"; VFunction (responding "H")];
                CallUse [VNumber 1];
                CallUse [VFunction (passing "g1")];
                CallMethod "GET" [VNull; VFunction (responding "H2")];
                CallUse [VFunction (passing "g2")]] in
  let st := run_calls calls createServer in
  globalMiddleWares st = [passing "g1"; passing "g2"]
  ∧ compiledHandlers st !! "GET"
    = Some [with_globals [passing "g1"; passing "g2"]
              (route_of (PathString "/a") NoOptions (responding "H"))].
Proof.
  intros calls st.
  destruct (compiled_table_after_any_sequence calls) as (_ & Hg & Hm).
  split; [exact Hg|]. exact (proj2 (Hm "GET")).
Defined.

(** C9. With an empty global list, compiling returns the raw table: on a
    server that went through any sequence of registrations without
    global middleware, the compiled table is the raw table, each bucket
    holds the routes as registration stored them, and the dispatcher
    works on the raw table. *)
Theorem compile_without_globals_is_identity (ops : list Op) :
  accumulated_globals ops = [] ->
  let st := snd (run_ops ops createServer) in
  globalMiddleWares st = []
  ∧ compileAllWithMiddlewares (groupedHandlers st) (globalMiddleWares st)
      server_getErrorHandler = groupedHandlers st
  ∧ compiledHandlers st = groupedHandlers st
  ∧ (∀ m, compiledHandlers st !! m = extend None (registered_routes m ops))
  ∧ ∀ req w,
      flitz st req w
      = dispatch (groupedHandlers st) (notFoundHandler st) (errorHandler st) req w.
Proof.
  intros Hnone.
  destruct (run_ops_state ops createServer) as (st' & Hrun & _ & _ & Hg & Hr & Hc).
  rewrite Hrun. simpl. simpl in Hg. rewrite Hnone in Hg.
  assert (Hsame : compiledHandlers st' = groupedHandlers st').
  { destruct ops as [|op ops].
    - simpl in Hrun. injection Hrun as <-. reflexivity.
    - rewrite Hc by discriminate. rewrite Hg. reflexivity. }
  split; [exact Hg|]. split; [rewrite Hg; reflexivity|]. split; [exact Hsame|].
  split.
  - intros m. rewrite Hsame, Hr. reflexivity.
  - intros req w. unfold flitz. rewrite Hsame. reflexivity.
Qed.

Lemma compile_without_globals_is_identity_witness :
  let st := snd (run_ops [OpRoute "GET" (PathString "/") NoOptions (responding "H")]
                   createServer) in
  compiledHandlers st = groupedHandlers st.
Proof.
  intros st.
  apply (compile_without_globals_is_identity
           [OpRoute "GET" (PathString "/") NoOptions (responding "H")]).
  reflexivity.
Defined.

(** ** The bound on nested calls of [next] *)

Section Depth.
Context (h : RequestHandler) (ms : list Func) (ge : GetFunc Func).
Context (env : Env) (req : Request).

Lemma run_steps_cursor nx :
  (∀ k fr, nx = Some k -> i fr <= i (k fr)) ->
  ∀ ss c fr, i fr <= i (snd (run_steps frame_emit nx ss c fr)).
Proof.
  intros Hnx. induction ss as [|[op|] ss IH]; intros c fr; simpl.
  - lia.
  - specialize (IH c (frame_emit (EvRes op) fr)). simpl in IH. exact IH.
  - destruct nx as [k|]; simpl; [|lia].
    specialize (IH c (k fr)). specialize (Hnx k fr eq_refl). lia.
Qed.

Lemma next_cursor_grows depth : ∀ fr, i fr + 1 <= i (next h ms ge env req depth fr).
Proof.
  induction depth as [|depth IH]; intros fr; simpl.
  - destruct (array_get ms (i fr + 1)); [simpl; lia|].
    destruct (h env req (res fr)); simpl; lia.
  - destruct (array_get ms (i fr + 1)) as [mw|].
    + unfold call, run_script.
      pose proof (run_steps_cursor (Some (next h ms ge env req depth))) as Hrun.
      specialize (Hrun (fun k fr' Hk => ltac:(injection Hk as <-; specialize (IH fr'); lia))).
      specialize (Hrun (steps (run mw req (res (frame_emit (EvCall (fname mw))
                                               {| i := i fr + 1; res := res fr |}))))
                       (completion (run mw req (res (frame_emit (EvCall (fname mw))
                                               {| i := i fr + 1; res := res fr |}))))
                       (frame_emit (EvCall (fname mw)) {| i := i fr + 1; res := res fr |})).
      destruct (run_steps _ _ _ _ _) as [c fr']. simpl in *. lia.
    + destruct (h env req (res fr)); simpl; lia.
Qed.

Lemma run_steps_agree k1 k2 lo :
  (∀ fr, lo <= i fr -> k1 fr = k2 fr) ->
  (∀ fr, i fr <= i (k1 fr)) ->
  ∀ ss c fr, lo <= i fr ->
    run_steps frame_emit (Some k1) ss c fr = run_steps frame_emit (Some k2) ss c fr.
Proof.
  intros Hk Hgrow. induction ss as [|[op|] ss IH]; intros c fr Hlo; simpl.
  - reflexivity.
  - apply IH. simpl. exact Hlo.
  - rewrite <- (Hk fr Hlo). apply IH. specialize (Hgrow fr). lia.
Qed.

(** Any depth that covers the middlewares still ahead of the cursor gives
    the same run: the bound of [mergeHandler] is never the reason why a
    call of [next] returns. *)
Lemma next_depth_irrelevant d1 : ∀ d2 fr,
  -1 <= i fr ->
  Z.of_nat (length ms) <= Z.of_nat d1 + (i fr + 1) ->
  Z.of_nat (length ms) <= Z.of_nat d2 + (i fr + 1) ->
  next h ms ge env req d1 fr = next h ms ge env req d2 fr.
Proof.
  induction d1 as [|d1 IH]; intros d2 fr Hi H1 H2.
  - destruct d2 as [|d2]; [reflexivity|]. simpl.
    destruct (array_get ms (i fr + 1)) as [mw|] eqn:Hget; [|reflexivity].
    exfalso. unfold array_get in Hget.
    destruct (i fr + 1 <? 0); [discriminate Hget|].
    apply lookup_lt_Some in Hget. lia.
  - destruct d2 as [|d2].
    + simpl. destruct (array_get ms (i fr + 1)) as [mw|] eqn:Hget; [|reflexivity].
      exfalso. unfold array_get in Hget.
      destruct (i fr + 1 <? 0); [discriminate Hget|].
      apply lookup_lt_Some in Hget. lia.
    + simpl. destruct (array_get ms (i fr + 1)) as [mw|] eqn:Hget; [|reflexivity].
      unfold call, run_script.
      rewrite (run_steps_agree (next h ms ge env req d1) (next h ms ge env req d2)
                 (i fr + 1)).
      * reflexivity.
      * intros fr' Hfr'. apply IH; lia.
      * intros fr'. pose proof (next_cursor_grows d1 fr'). lia.
      * simpl. lia.
Qed.

Lemma mergeHandler_depth_adequate depth w :
  (length ms <= depth)%nat ->
  mergeHandler h ms ge env req w
  = (Resolved, res (next h ms ge env req depth {| i := -1; res := w |})).
Proof.
  intros Hd. unfold mergeHandler. do 2 f_equal.
  apply next_depth_irrelevant; simpl; lia.
Qed.
End Depth.

(** ** A registered route behind global middlewares *)

Section Wrap.
Context (env : Env) (req : Request).

Lemma wrap_with_cooperative h ms final :
  Forall (calls_next_once req) ms ->
  (∀ w, h env req w = (Resolved, final w)) ->
  ∀ w, wrap_with ms h env req w = (Resolved, chain_trace req ms final w).
Proof.
  intros Hms Hh w. destruct ms as [|f ms]; [apply Hh|].
  unfold wrap_with. rewrite mergeHandler_cooperative by exact Hms.
  f_equal. apply chain_trace_ext. intros w'.
  unfold settle. rewrite Hh. reflexivity.
Qed.


Lemma wrap_with_failing h ms coop f tail e :
  ms = coop ++ f :: tail ->
  Forall (calls_next_once req) coop ->
  fails_without_next req e f ->
  ∀ w, wrap_with ms h env req w
       = (Resolved,
          chain_trace req coop (settle server_getErrorHandler env req (handler_of f)) w).
Proof.
  intros Hms Hcoop Hf w.
  destruct ms as [|f0 ms]; [destruct coop; discriminate Hms|].
  unfold wrap_with. apply (mergeHandler_failing _ _ _ _ _ coop f tail e); assumption.
Qed.

(** The failing middleware may sit among the globals or among the
    route-scoped middlewares: the chain ends with it all the same. *)
Lemma wrap_nested_failing gs rs h coop f tail e :
  gs ++ rs = coop ++ f :: tail ->
  Forall (calls_next_once req) coop ->
  fails_without_next req e f ->
  ∀ w, wrap_with gs (wrap_with rs h) env req w
       = (Resolved,
          chain_trace req coop (settle server_getErrorHandler env req (handler_of f)) w).
Proof.
  intros Hsplit Hcoop Hf w.
  apply app_eq_app in Hsplit as [l [[Hgs Htail]|[Hc Hrs]]].
  - destruct l as [|f' l].
    + simpl in Htail. rewrite app_nil_r in Hgs. subst gs.
      rewrite <- (app_nil_r coop) at 2. rewrite chain_trace_app.
      apply (wrap_with_cooperative _ coop _ Hcoop).
      intros w'. simpl.
      apply (wrap_with_failing h rs [] f tail e); [symmetry; exact Htail | constructor | exact Hf].
    + injection Htail as <- Htail.
      apply (wrap_with_failing _ gs coop f l e); assumption.
  - subst coop. apply Forall_app in Hcoop as [Hgs Hl].
    rewrite chain_trace_app.
    apply (wrap_with_cooperative _ gs _ Hgs).
    intros w'. apply (wrap_with_failing h rs l f tail e); assumption.
Qed.

Lemma invocations_settle_failing f e :
  fails_without_next req e f ->
  ∀ w, invocations (settle server_getErrorHandler env req (handler_of f) w)
       = invocations w
         ++ [EvCall (fname f); EvCallError (fname (env_errorHandler env)) e].
Proof.
  intros Hf w. unfold settle, handler_of, call_handler, call, run_script.
  destruct (Hf (log (EvCall (fname f)) w)) as (ops & ->). simpl.
  rewrite run_steps_log_only_do.
  rewrite invocations_catch. unfold log.
  rewrite !invocations_app, invocations_res. simpl.
  rewrite app_nil_r, <- app_assoc. reflexivity.
Qed.
End Wrap.

Lemma register_then_use_state st m p o h more :
  errorHandler (register_then_use st m p o h more) = errorHandler st
  ∧ notFoundHandler (register_then_use st m p o h more) = notFoundHandler st
  ∧ globalMiddleWares (register_then_use st m p o h more) = globalMiddleWares st ++ more
  ∧ compiledHandlers (register_then_use st m p o h more) !! m
    = Some (map (with_globals (globalMiddleWares st ++ more))
              (default [] (groupedHandlers st !! m) ++ [route_of p o h])).
Proof.
  unfold register_then_use.
  rewrite flitz_method_route. simpl. rewrite flitz_use_functions. simpl.
  repeat split. rewrite compile_lookup, lookup_insert_eq. reflexivity.
Qed.

Lemma registered_route_first_match req gs old ctx :
  no_match req old ->
  isPathValid ctx req = Returns true ->
  first_match_at req (map (with_globals gs) (old ++ [ctx])) (length old)
    (with_globals gs ctx).
Proof.
  intros Hold Hctx. split; [|split].
  - rewrite list_lookup_fmap, lookup_app_r by lia.
    rewrite Nat.sub_diag. reflexivity.
  - exact Hctx.
  - intros j c Hj Hc. rewrite list_lookup_fmap in Hc.
    rewrite lookup_app_l in Hc by exact Hj.
    destruct (old !! j) as [c0|] eqn:Hc0; [|discriminate Hc].
    injection Hc as <-. simpl.
    unfold no_match in Hold. rewrite Forall_forall in Hold.
    apply Hold. eapply list_elem_of_lookup_2. exact Hc0.
Qed.

Lemma names_app l1 l2 : names (l1 ++ l2) = names l1 ++ names l2.
Proof. apply map_app. Qed.

Lemma error_calls_app w1 w2 : error_calls (w1 ++ w2) = error_calls w1 ++ error_calls w2.
Proof. unfold error_calls. induction w1 as [|ev w1 IH]; simpl; [reflexivity|].
  destruct (is_error_call ev); simpl; rewrite IH; reflexivity. Qed.

Lemma error_calls_invocations w : error_calls (invocations w) = error_calls w.
Proof.
  unfold error_calls, invocations.
  induction w as [|ev w IH]; simpl; [reflexivity|].
  destruct ev; simpl; rewrite IH; reflexivity.
Qed.

Lemma error_calls_names l : error_calls (names l) = [].
Proof. induction l as [|f l IH]; simpl; [reflexivity | exact IH]. Qed.



(** C4 (counterexample). A route with the middlewares [m1; m2; m3] and
    the handler [H], where [m1] calls [next()] twice and [m2] rejects
    without calling [next()].  The error handler is called once, with
    the failure of [m2]; yet the second [next()] of [m1] moves the
    cursor of the chain past [m2], and both [m3] and [H] are called for
    the same request. *)
Lemma failing_middleware_does_not_stop_a_second_next :
  let m1 := calling_next_twice "m1" in
  let m2 := failing "m2" (Failure "boom") in
  let m3 := passing "m3" in
  let H := responding "H" in
  let st := register_then_use createServer "GET" (PathString "/a")
              (MiddlewareList [m1; m2; m3]) H [] in
  let trace := snd (flitz st (GET "/a") []) in
  fails_without_next (GET "/a") (Failure "boom") m2
  ∧ error_calls trace = [EvCallError "defaultErrorHandler" (Failure "boom")]
  ∧ EvCall (fname m3) ∈ trace
  ∧ EvCall (fname H) ∈ trace.
Proof.
  intros m1 m2 m3 H st trace. split; [|split; [|split]].
  - intros w. exists []. reflexivity.
  - vm_compute. reflexivity.
  - apply list_elem_of_In. vm_compute. tauto.
  - apply list_elem_of_In. vm_compute. tauto.
Qed.

(** C4 (amended). Let a route be registered and dispatched as in C2, on
    a server whose error handler is then set to [eh].  If one middleware
    of the chain [gs ++ rs] rejects with [e] without calling [next()],
    the middlewares before it having called [next()] exactly once and
    resolved, then the calls made for the request are those of the
    middlewares up to the failing one followed by one call of [eh] with
    [e]: the error handler is called once, and neither a later
    middleware nor [H] is called. *)
Theorem failing_middleware_reaches_error_handler_once
    (st : Server) (p : RequestPath) (o : OptionsOrMiddlewares) (H : Func)
    (more : list Func) (eh : Func) (req : Request) (w : World)
    (coop : list Func) (f : Func) (tail : list Func) (e : JSError) :
  let gs := globalMiddleWares st ++ more in
  let rs := route_middlewares o in
  let st' := configured eh (register_then_use st (method req) p o H more) in
  let old := default [] (groupedHandlers st !! method req) in
  no_match req old ->
  validator_of (value_of_path p) req = Returns true ->
  gs ++ rs = coop ++ f :: tail ->
  Forall (calls_next_once req) coop ->
  fails_without_next req e f ->
  errorHandler st' = eh
  ∧ fst (flitz st' req w) = Resolved
  ∧ invocations (snd (flitz st' req w))
    = invocations w ++ names coop ++ [EvCall (fname f); EvCallError (fname eh) e]
  ∧ error_calls (snd (flitz st' req w)) = error_calls w ++ [EvCallError (fname eh) e].
Proof.
  intros gs rs st' old Hold Hp Hsplit Hcoop Hf.
  destruct (register_then_use_state st (method req) p o H more) as (_ & _ & _ & Hc).
  fold gs old in Hc.
  assert (Hc' : compiledHandlers st' !! method req
                = Some (map (with_globals gs) (old ++ [route_of p o H]))) by exact Hc.
  assert (He : errorHandler st' = eh) by reflexivity.
  set (env := {| env_errorHandler := eh |}).
  assert (Hrun : flitz st' req w
                 = (Resolved,
                    chain_trace req coop
                      (settle server_getErrorHandler env req (handler_of f))
                      (w ++ tests (S (length old))))).
  { unfold flitz.
    rewrite (dispatch_first_match _ _ _ req w _ (length old) _ Hc'
               (registered_route_first_match req gs old (route_of p o H) Hold Hp)).
    rewrite He. simpl handler. fold rs env.
    rewrite (wrap_nested_failing env req gs rs (handler_of H) coop f tail e Hsplit Hcoop Hf).
    reflexivity. }
  assert (Hinv : invocations (snd (flitz st' req w))
                 = invocations w ++ names coop
                   ++ [EvCall (fname f); EvCallError (fname eh) e]).
  { rewrite Hrun. simpl.
    rewrite (invocations_chain_trace req coop _
               [EvCall (fname f); EvCallError (fname eh) e]).
    - rewrite invocations_app. unfold tests. rewrite invocations_tests, app_nil_r.
      reflexivity.
    - intros w'. apply (invocations_settle_failing env req f e Hf). }
  split; [exact He|]. split; [rewrite Hrun; reflexivity|]. split; [exact Hinv|].
  rewrite <- error_calls_invocations, Hinv.
  rewrite !error_calls_app, error_calls_invocations, error_calls_names. reflexivity.
Qed.

Lemma failing_middleware_reaches_error_handler_once_witness :
  let st := snd (flitz_use [VFunction (passing "g1")] createServer) in
  let st' := configured (responding "onError")
               (register_then_use st "GET" (PathString "/a")
                  (MiddlewareList [failing "r1" (Failure "boom"); passing "r2"])
                  (responding "H") []) in
  invocations (snd (flitz st' (GET "/a") []))
  = [EvCall "g1"; EvCall "r1"; EvCallError "onError" (Failure "boom")].
Proof.
  intros st st'.
  apply (failing_middleware_reaches_error_handler_once st (PathString "/a")
           (MiddlewareList [failing "r1" (Failure "boom"); passing "r2"])
           (responding "H") [] (responding "onError") (GET "/a") []
           [passing "g1"] (failing "r1" (Failure "boom")) [passing "r2"] (Failure "boom")).
  - constructor.
  - reflexivity.
  - reflexivity.
  - repeat constructor; intros w; exists [], []; reflexivity.
  - intros w. exists []. reflexivity.
Defined.

(** ** The static cache *)

Lemma FsNode_nested_ind (P : FsNode -> Prop) :
  (∀ data, P (FsFile data)) ->
  (∀ content, Forall (fun entry => P (snd entry)) content -> P (FsDir content)) ->
  P FsOther ->
  ∀ node, P node.
Proof.
  intros Hfile Hdir Hother.
  fix IH 1. intros [data|content|].
  - apply Hfile.
  - apply Hdir. induction content as [|entry content IHc]; constructor.
    + apply IH.
    + exact IHc.
  - exact Hother.
Qed.

Lemma wf_node_dir content :
  wf_node (FsDir content)
  ↔ NoDup (map fst content)
    ∧ Forall (fun entry => no_slash (fst entry) = true ∧ wf_node (snd entry)) content.
Proof.
  simpl. apply and_iff_compat_l.
  induction content as [|entry content IH].
  - split; intros _; [constructor | exact I].
  - rewrite Forall_cons, <- IH. tauto.
Qed.

(** [loadAllFiles] writes the files below the directory, one after the
    other, each under its key. *)
Lemma loadItem_files_below rootDir basePath node : ∀ rel files,
  loadItem rootDir basePath node (rootDir ++ rel) files
  = fold_left (insert_file basePath) (files_below node rel) files.
Proof.
  induction node as [data|content IH|] using FsNode_nested_ind; intros rel files.
  - simpl. unfold insert_file, key_of, relativePath. simpl.
    rewrite drop_app_length. reflexivity.
  - simpl. revert files. induction IH as [|entry content Hentry _ IHc]; intros files.
    + reflexivity.
    + simpl. rewrite fold_left_app. rewrite <- IHc.
      unfold joinPath. rewrite <- app_assoc. rewrite Hentry. reflexivity.
  - reflexivity.
Qed.

Lemma loadAllFiles_files_below rootDir basePath content files :
  loadAllFiles rootDir basePath content rootDir files
  = fold_left (insert_file basePath) (files_below (FsDir content) []) files.
Proof.
  rewrite <- (loadItem_files_below rootDir basePath (FsDir content) [] files).
  rewrite app_nil_r. reflexivity.
Qed.

(** *** Strings *)

Lemma append_inj_r (s a b : string) : s +:+ a = s +:+ b -> a = b.
Proof. induction s as [|c s IH]; simpl; intros H; [exact H|]. injection H as H. auto. Qed.

Lemma prefix_append (s t : string) : String.prefix s (s +:+ t) = true.
Proof.
  induction s as [|c s IH]; simpl; [destruct t; reflexivity|].
  destruct (Ascii.ascii_dec c c); [exact IH | congruence].
Qed.

Lemma no_slash_cons c s : no_slash (String c s) = true -> c ≠ slash ∧ no_slash s = true.
Proof.
  simpl. intros H. apply andb_prop in H as [Hc Hs]. split; [|exact Hs].
  intros ->. unfold slash in Hc. rewrite Ascii.eqb_refl in Hc. discriminate Hc.
Qed.

(** A name without "/" ends at the first "/" of a path. *)
Lemma split_at_slash x : ∀ y a b,
  no_slash x = true -> no_slash y = true ->
  x +:+ String slash a = y +:+ String slash b -> x = y ∧ a = b.
Proof.
  induction x as [|c x IH]; intros [|c' y] a b Hx Hy H; simpl in H.
  - injection H as H. auto.
  - injection H as Hc _. apply no_slash_cons in Hy as [Hy _]. congruence.
  - injection H as Hc _. apply no_slash_cons in Hx as [Hx _]. congruence.
  - injection H as Hc H.
    apply no_slash_cons in Hx as [_ Hx]. apply no_slash_cons in Hy as [_ Hy].
    destruct (IH y a b Hx Hy H) as [-> ->]. subst. auto.
Qed.

Lemma no_slash_inside x : ∀ y b,
  no_slash x = true -> x ≠ y +:+ String slash b.
Proof.
  induction x as [|c x IH]; intros [|c' y] b Hx H; simpl in H; try discriminate H.
  - injection H as Hc _. apply no_slash_cons in Hx as [Hx _]. congruence.
  - injection H as _ H. apply no_slash_cons in Hx as [_ Hx]. exact (IH y b Hx H).
Qed.

Lemma concat_cons2 x y l :
  String.concat "/" (x :: y :: l) = x +:+ String slash (String.concat "/" (y :: l)).
Proof. reflexivity. Qed.

(** Joining names with "/" loses nothing. *)
Lemma concat_slash_inj l1 : ∀ l2,
  l1 ≠ [] -> l2 ≠ [] ->
  Forall (fun s => no_slash s = true) l1 ->
  Forall (fun s => no_slash s = true) l2 ->
  String.concat "/" l1 = String.concat "/" l2 -> l1 = l2.
Proof.
  induction l1 as [|x l1 IH]; intros [|y l2] Hne1 Hne2 H1 H2 H; try congruence.
  apply Forall_cons in H1 as [Hx H1]. apply Forall_cons in H2 as [Hy H2].
  destruct l1 as [|x' l1], l2 as [|y' l2].
  - simpl in H. congruence.
  - rewrite concat_cons2 in H. change (String.concat "/" [x]) with x in H.
    exfalso. exact (no_slash_inside x y _ Hx H).
  - rewrite concat_cons2 in H. change (String.concat "/" [y]) with y in H.
    exfalso. symmetry in H. exact (no_slash_inside y x _ Hy H).
  - rewrite !concat_cons2 in H.
    destruct (split_at_slash x y _ _ Hx Hy H) as [-> Hrest].
    f_equal. apply IH; try assumption; discriminate.
Qed.

Lemma key_of_inj basePath l1 l2 :
  l1 ≠ [] -> l2 ≠ [] ->
  Forall (fun s => no_slash s = true) l1 ->
  Forall (fun s => no_slash s = true) l2 ->
  key_of basePath l1 = key_of basePath l2 -> l1 = l2.
Proof.
  intros Hne1 Hne2 H1 H2 H. unfold key_of in H.
  do 2 apply append_inj_r in H.
  apply (concat_slash_inj l1 l2 Hne1 Hne2 H1 H2 H).
Qed.

Lemma key_of_prefix basePath rel : startsWith (key_of basePath rel) basePath = true.
Proof.
  unfold startsWith, key_of. apply prefix_append.
Qed.

(** *** Paths and listings *)

Lemma find_by_name (content : list (string * FsNode)) entry :
  NoDup (map fst content) -> entry ∈ content ->
  List.find (fun x => String.eqb (fst x) (fst entry)) content = Some entry.
Proof.
  induction content as [|x content IH]; intros Hnd Hin.
  - inversion Hin.
  - simpl in Hnd. apply NoDup_cons in Hnd as [Hx Hnd]. simpl.
    apply elem_of_cons in Hin as [->|Hin].
    + rewrite String.eqb_refl. reflexivity.
    + destruct (String.eqb (fst x) (fst entry)) eqn:E.
      * apply String.eqb_eq in E. exfalso. apply Hx. rewrite E.
        apply list_elem_of_fmap. exists entry. auto.
      * apply IH; assumption.
Qed.

Lemma find_name_elem (content : list (string * FsNode)) name entry :
  List.find (fun x => String.eqb (fst x) name) content = Some entry ->
  entry ∈ content ∧ fst entry = name.
Proof.
  intros H. apply find_some in H as [Hin Hname].
  split; [apply list_elem_of_In; exact Hin | apply String.eqb_eq; exact Hname].
Qed.

Lemma elem_of_flat_map {A B} (f : A -> list B) (l : list A) (y : B) :
  y ∈ flat_map f l ↔ ∃ x, x ∈ l ∧ y ∈ f x.
Proof.
  rewrite list_elem_of_In, in_flat_map. split; intros (x & Hx & Hy); exists x.
  - rewrite !list_elem_of_In. auto.
  - rewrite <- !list_elem_of_In. auto.
Qed.

(** The listing holds exactly the regular files that paths lead to. *)
Lemma files_below_spec node : ∀ rel0 p d,
  wf_node node ->
  (p, d) ∈ files_below node rel0
  ↔ ∃ suffix, p = rel0 ++ suffix ∧ node_at node suffix = Some (FsFile d).
Proof.
  induction node as [data|content IH|] using FsNode_nested_ind; intros rel0 p d Hwf.
  - simpl. rewrite list_elem_of_singleton. split.
    + intros [= -> ->]. exists []. rewrite app_nil_r. auto.
    + intros ([|name suffix] & -> & H); simpl in H; [|discriminate H].
      injection H as ->. rewrite app_nil_r. reflexivity.
  - apply wf_node_dir in Hwf as [Hnd Hall].
    simpl files_below. rewrite elem_of_flat_map. split.
    + intros (entry & Hin & Hp).
      rewrite Forall_forall in IH, Hall.
      apply (IH entry Hin) in Hp; [|apply (Hall entry Hin)].
      destruct Hp as (suffix & -> & Hnode).
      exists (fst entry :: suffix). split; [rewrite <- app_assoc; reflexivity|].
      simpl. rewrite (find_by_name content entry Hnd Hin). exact Hnode.
    + intros ([|name suffix] & -> & H); simpl in H; [discriminate H|].
      destruct (List.find _ content) as [entry|] eqn:Hfind; [|discriminate H].
      apply find_name_elem in Hfind as [Hin <-].
      exists entry. split; [exact Hin|].
      rewrite Forall_forall in IH, Hall.
      apply (IH entry Hin); [apply (Hall entry Hin)|].
      exists suffix. split; [rewrite <- app_assoc; reflexivity | exact H].
  - simpl. split.
    + intros H. inversion H.
    + intros ([|name suffix] & _ & H); simpl in H; discriminate H.
Qed.

Lemma node_at_names rel : ∀ node node',
  wf_node node -> node_at node rel = Some node' ->
  Forall (fun s => no_slash s = true) rel ∧ wf_node node'.
Proof.
  induction rel as [|name rel IH]; intros node node' Hwf H; simpl in H.
  - injection H as <-. split; [constructor | exact Hwf].
  - destruct node as [|content|]; try discriminate H.
    destruct (List.find _ content) as [entry|] eqn:Hfind; [|discriminate H].
    apply find_name_elem in Hfind as [Hin <-].
    apply wf_node_dir in Hwf as [_ Hall]. rewrite Forall_forall in Hall.
    destruct (Hall entry Hin) as [Hname Hwf'].
    destruct (IH _ _ Hwf' H) as [Hrel Hnode'].
    split; [constructor; assumption | exact Hnode'].
Qed.

Lemma file_at_path content rel data :
  wf_listing content -> file_at content rel = Some data ->
  rel ≠ [] ∧ Forall (fun s => no_slash s = true) rel.
Proof.
  unfold file_at, wf_listing. intros Hwf H.
  destruct (node_at (FsDir content) rel) as [[d| |]|] eqn:Hnode; try discriminate H.
  split.
  - intros ->. simpl in Hnode. discriminate Hnode.
  - apply (node_at_names rel _ _ Hwf Hnode).
Qed.

Lemma files_below_file_at content p d :
  wf_listing content ->
  (p, d) ∈ files_below (FsDir content) [] ↔ file_at content p = Some d.
Proof.
  intros Hwf. rewrite (files_below_spec (FsDir content) [] p d Hwf).
  unfold file_at. split.
  - intros (suffix & Hp & Hn). simpl in Hp. subst p. rewrite Hn. reflexivity.
  - intros H. exists p. split; [reflexivity|].
    destruct (node_at (FsDir content) p) as [[d'| |]|]; try discriminate H.
    injection H as ->. reflexivity.
Qed.

(** *** The map after the writes *)

Lemma fold_insert_file_lookup basePath (l : list (list string * list byte)) :
  (∀ e1 e2, e1 ∈ l -> e2 ∈ l ->
     key_of basePath (fst e1) = key_of basePath (fst e2) -> snd e1 = snd e2) ->
  ∀ key d,
    fold_left (insert_file basePath) l ∅ !! key = Some d
    ↔ ∃ e, e ∈ l ∧ key_of basePath (fst e) = key ∧ snd e = d.
Proof.
  induction l as [|x l IH] using rev_ind; intros Hcons key d.
  - simpl. rewrite lookup_empty. split; [discriminate|].
    intros (e & He & _). inversion He.
  - rewrite fold_left_app. simpl. unfold insert_file at 1.
    destruct (decide (key_of basePath (fst x) = key)) as [Hk|Hk].
    + rewrite Hk, lookup_insert_eq. split.
      * intros [= <-]. exists x. split; [apply elem_of_app; right; constructor|]. auto.
      * intros (e & He & Hek & <-). f_equal. symmetry.
        apply Hcons; [exact He | apply elem_of_app; right; constructor | congruence].
    + rewrite lookup_insert_ne by exact Hk. rewrite IH.
      * split; intros (e & He & Hek & Hed); exists e.
        -- split; [apply elem_of_app; left; exact He | auto].
        -- apply elem_of_app in He as [He|He]; [auto|].
           apply list_elem_of_singleton in He. subst e. congruence.
      * intros e1 e2 H1 H2. apply Hcons; apply elem_of_app; left; assumption.
Qed.

(** The cache holds the regular files below the root, each under its
    key, and nothing else. *)
Lemma staticFiles_lookup content rootDir basePath key d :
  wf_listing content ->
  staticFiles content rootDir basePath !! key = Some d
  ↔ ∃ rel, file_at content rel = Some d ∧ key = key_of basePath rel.
Proof.
  intros Hwf. unfold staticFiles. rewrite loadAllFiles_files_below.
  rewrite fold_insert_file_lookup.
  - split.
    + intros ([p d'] & Hin & Hkey & Hd). simpl in *. subst d'.
      exists p. split; [apply files_below_file_at; assumption | congruence].
    + intros (rel & Hfile & ->). exists (rel, d). simpl.
      split; [apply files_below_file_at; assumption | auto].
  - intros [p1 d1] [p2 d2] H1 H2 Hkey. simpl in *.
    apply (files_below_file_at content _ _ Hwf) in H1, H2.
    destruct (file_at_path content p1 d1 Hwf H1) as [Hne1 Hs1].
    destruct (file_at_path content p2 d2 Hwf H2) as [Hne2 Hs2].
    assert (p1 = p2) by (apply (key_of_inj basePath); assumption).
    congruence.
Qed.

Lemma createStaticHandlerCached_call content rootDir basePath req w :
  call_handler (createStaticHandlerCached content rootDir basePath) req w
  = (Resolved,
     w ++ EvCall "createStaticHandlerCached"
       :: match staticFiles content rootDir basePath !! url req with
          | Some data => [EvRes (WriteHead 200); EvRes (WriteBody data); EvRes EndResponse]
          | None => [EvRes (WriteHead 404); EvRes EndResponse]
          end).
Proof.
  unfold call_handler, call, run_script, createStaticHandlerCached. simpl.
  destruct (staticFiles content rootDir basePath !! url req) as [data|];
    simpl; unfold log; rewrite <- !app_assoc; reflexivity.
Qed.

(** On a new server, a GET request whose url starts with [basePath] goes
    to the static handler. *)
Lemma flitz_static_dispatch content rootDir basePath req w :
  method req = "GET" ->
  startsWith (url req) basePath = true ->
  flitz (snd (flitz_static content basePath rootDir createServer)) req w
  = call_handler (createStaticHandlerCached content rootDir basePath) req (w ++ [EvTest 0]).
Proof.
  intros Hm Hs. unfold flitz_static, addStatic, flitz_get.
  pose proof (flitz_method_route "GET"
                (PathFunction (createStaticPathValidator basePath)) NoOptions
                (createStaticHandlerCached content rootDir basePath) createServer) as Hreg.
  cbv zeta in Hreg. change (route_args _ _ _) with
    [VFunction (createStaticPathValidator basePath);
     VFunction (createStaticHandlerCached content rootDir basePath)] in Hreg.
  rewrite Hreg. clear Hreg.
  unfold flitz, dispatch.
  cbn [snd compiledHandlers notFoundHandler errorHandler globalMiddleWares
       groupedHandlers createServer].
  rewrite compile_nil, Hm, lookup_insert_eq.
  rewrite lookup_empty.
  cbn [default from_option app find_ctx route_of isPathValid validator_of value_of_path
       createStaticPathValidator validate].
  rewrite Hs.
  cbn [handler route_of route_middlewares wrap_with]. unfold log, handler_of.
  rewrite createStaticHandlerCached_call. reflexivity.
Qed.

(** C8. In cache mode the map built at registration holds one key for
    each regular file below the root directory, [basePath], a "/" unless
    [basePath] ends with one, and the relative path joined with "/";
    the key is mapped to the bytes of the file and different files have
    different keys.  The handler answers a request whose url is a key
    with 200 and those bytes, and any other request with 404, writing
    the response itself; on a new server with the provider registered a
    GET request whose url starts with [basePath] gets exactly that
    answer, the not-found handler is not called. *)
Theorem static_cache_serves_exact_files
    (content : list (string * FsNode)) (rootDir : list string) (basePath : string) :
  wf_listing content ->
  let files := staticFiles content rootDir basePath in
  let cached := createStaticHandlerCached content rootDir basePath in
  let st := snd (flitz_static content basePath rootDir createServer) in
  (∀ rel data, file_at content rel = Some data ->
     files !! key_of basePath rel = Some data)
  ∧ (∀ key data, files !! key = Some data ->
       ∃ rel, file_at content rel = Some data ∧ key = key_of basePath rel)
  ∧ (∀ rel1 rel2 d1 d2,
       file_at content rel1 = Some d1 -> file_at content rel2 = Some d2 ->
       key_of basePath rel1 = key_of basePath rel2 -> rel1 = rel2)
  ∧ (∀ req w data, files !! url req = Some data ->
       call_handler cached req w
       = (Resolved,
          w ++ [EvCall (fname cached); EvRes (WriteHead 200);
                EvRes (WriteBody data); EvRes EndResponse])
       ∧ (method req = "GET" ->
          flitz st req w
          = (Resolved,
             w ++ [EvTest 0; EvCall (fname cached); EvRes (WriteHead 200);
                   EvRes (WriteBody data); EvRes EndResponse])))
  ∧ (∀ req w, files !! url req = None ->
       call_handler cached req w
       = (Resolved, w ++ [EvCall (fname cached); EvRes (WriteHead 404); EvRes EndResponse])
       ∧ (method req = "GET" -> startsWith (url req) basePath = true ->
          flitz st req w
          = (Resolved,
             w ++ [EvTest 0; EvCall (fname cached); EvRes (WriteHead 404);
                   EvRes EndResponse]))).
Proof.
  intros Hwf files cached st.
  split; [|split; [|split; [|split]]].
  - intros rel data H. apply (staticFiles_lookup content rootDir basePath _ _ Hwf).
    exists rel. auto.
  - intros key data H.
    apply (staticFiles_lookup content rootDir basePath _ _ Hwf). exact H.
  - intros rel1 rel2 d1 d2 H1 H2 Hkey.
    destruct (file_at_path content rel1 d1 Hwf H1) as [Hne1 Hs1].
    destruct (file_at_path content rel2 d2 Hwf H2) as [Hne2 Hs2].
    apply (key_of_inj basePath); assumption.
  - intros req w data Hfile. split.
    + subst cached. rewrite createStaticHandlerCached_call. fold files. rewrite Hfile.
      reflexivity.
    + intros Hm. subst st.
      assert (Hs : startsWith (url req) basePath = true).
      { apply (staticFiles_lookup content rootDir basePath _ _ Hwf) in Hfile
          as (rel & _ & ->). apply key_of_prefix. }
      rewrite (flitz_static_dispatch content rootDir basePath req w Hm Hs).
      rewrite createStaticHandlerCached_call. fold files. rewrite Hfile.
      rewrite <- app_assoc. reflexivity.
  - intros req w Hfile. split.
    + subst cached. rewrite createStaticHandlerCached_call. fold files. rewrite Hfile.
      reflexivity.
    + intros Hm Hs. subst st.
      rewrite (flitz_static_dispatch content rootDir basePath req w Hm Hs).
      rewrite createStaticHandlerCached_call. fold files. rewrite Hfile.
      rewrite <- app_assoc. reflexivity.
Qed.

Lemma example_root_wf : wf_listing example_root.
Proof.
  unfold wf_listing, example_root. simpl.
  repeat split; apply (bool_decide_unpack _); vm_compute; reflexivity.
Qed.

Lemma static_cache_serves_exact_files_witness :
  let files := staticFiles example_root ["srv"; "www"] "/static" in
  let st := snd (flitz_static example_root "/static" ["srv"; "www"] createServer) in
  files !! "/static/a.txt" = Some ["a"%byte]
  ∧ files !! "/static/sub/b.txt" = Some ["b"%byte]
  ∧ flitz st (GET "/static/missing.txt") []
    = (Resolved,
       [EvTest 0; EvCall "createStaticHandlerCached"; EvRes (WriteHead 404);
        EvRes EndResponse]).
Proof.
  intros files st.
  destruct (static_cache_serves_exact_files example_root ["srv"; "www"] "/static"
              example_root_wf) as (Hkey & _ & _ & _ & Hmiss).
  split; [|split].
  - apply (Hkey ["a.txt"]). reflexivity.
  - apply (Hkey ["sub"; "b.txt"]). reflexivity.
  - apply (Hmiss (GET "/static/missing.txt") []); reflexivity.
Defined.

(** * Further properties of the code *)

(** ** Registration calls are all or nothing *)

Lemma accepted_method_shape m arguments op :
  accepted (CallMethod m arguments) = Some op -> ∃ p o h, op = OpRoute m p o h.
Proof.
  unfold accepted. intros H.
  destruct (classify_path (arg arguments 0)) as [p|]; [|discriminate H].
  simpl in H.
  destruct (handler_arg arguments) as [| | | | | |h| |]; try discriminate H.
  simpl in H.
  destruct (classify_options _) as [o|]; [|discriminate H].
  injection H as <-. eauto.
Qed.

(** X1. [use(...middlewares)] with an argument that is not a function
    throws a [TypeError] and appends nothing, not even the functions
    among its arguments; otherwise it appends the arguments in order,
    recompiles, and touches neither the raw table nor the handler
    slots. *)
Theorem use_is_all_or_nothing (arguments : list JSValue) (st : Server) :
  let st' := snd (flitz_use arguments st) in
  if forallb is_function arguments
  then fst (flitz_use arguments st) = Return tt
       ∧ globalMiddleWares st' = globalMiddleWares st ++ functions_of arguments
       ∧ groupedHandlers st' = groupedHandlers st
       ∧ errorHandler st' = errorHandler st
       ∧ notFoundHandler st' = notFoundHandler st
       ∧ compiledHandlers st'
         = compileAllWithMiddlewares (groupedHandlers st')
             (globalMiddleWares st') server_getErrorHandler
  else raises_InvalidArgument (fst (flitz_use arguments st)) ∧ st' = st.
Proof.
  intros st'. subst st'.
  destruct (forallb is_function arguments) eqn:Hall.
  - pose proof (flitz_use_functions (functions_of arguments) st) as Hrun.
    rewrite (map_functions_of arguments Hall) in Hrun. rewrite Hrun. simpl.
    repeat split; reflexivity.
  - rewrite exec_call_use_rejected.
    + split; [eexists; reflexivity | reflexivity].
    + unfold middleware_list. rewrite Hall. reflexivity.
Qed.

(** X2. A registration call with arguments of any kind either throws a
    [TypeError] and leaves the whole state as it was, or returns having
    appended exactly one route at the end of the bucket of its method:
    the other buckets, the global middlewares and the handler slots are
    untouched and the compiled table is rebuilt from the new raw
    table. *)
Theorem registration_is_all_or_nothing (m : string) (arguments : list JSValue) (st : Server) :
  let st' := snd (flitz_method m arguments st) in
  match fst (flitz_method m arguments st) with
  | Return _ =>
      (∃ ctx, groupedHandlers st' !! m
              = Some (default [] (groupedHandlers st !! m) ++ [ctx]))
      ∧ (∀ m', m' ≠ m -> groupedHandlers st' !! m' = groupedHandlers st !! m')
      ∧ globalMiddleWares st' = globalMiddleWares st
      ∧ errorHandler st' = errorHandler st
      ∧ notFoundHandler st' = notFoundHandler st
      ∧ compiledHandlers st'
        = compileAllWithMiddlewares (groupedHandlers st')
            (globalMiddleWares st') server_getErrorHandler
  | Throw e => (∃ msg, e = TypeError msg) ∧ st' = st
  end.
Proof.
  intros st'. subst st'.
  pose proof (exec_call_sound (CallMethod m arguments) st) as Hsound.
  destruct (accepted (CallMethod m arguments)) as [op|] eqn:Hacc.
  - destruct (accepted_method_shape m arguments op Hacc) as (p & o & h & ->).
    simpl in Hsound. rewrite Hsound, flitz_method_route. simpl.
    split; [eexists; apply lookup_insert_eq|].
    split; [intros m' Hne; apply lookup_insert_ne; congruence|].
    repeat split; reflexivity.
  - destruct Hsound as [msg Hthrow]. simpl in Hthrow. rewrite Hthrow. simpl.
    split; [exists msg|]; reflexivity.
Qed.

(** ** Shapes of a registration call *)

(** X3. The forms of the middleware argument are interchangeable: two
    registration calls with the same path and handler whose middleware
    arguments normalise to the same list leave the same state, and a
    falsy third-position argument is the call without it. *)
Theorem route_call_shapes_agree
    (m : string) (p : RequestPath) (o1 o2 : OptionsOrMiddlewares) (h : Func)
    (v : JSValue) (st : Server) :
  route_middlewares o1 = route_middlewares o2 ->
  truthy v = false ->
  flitz_method m (route_args p o1 h) st = flitz_method m (route_args p o2 h) st
  ∧ flitz_method m [value_of_path p; v; VFunction h] st
    = flitz_method m [value_of_path p; VFunction h] st.
Proof.
  intros Hsame Hv. split.
  - rewrite !flitz_method_route. unfold route_of. rewrite Hsame. reflexivity.
  - rewrite (exec_call_method_accepted m [value_of_path p; v; VFunction h]
               (OpRoute m p NoOptions h)).
    + reflexivity.
    + unfold accepted.
      destruct p; destruct v; try discriminate Hv; simpl in *; rewrite ?Hv;
        reflexivity.
Qed.

Lemma route_call_shapes_agree_witness :
  let f := passing "mw" in
  let h := responding "H" in
  flitz_get [VString "/a"; VFunction f; VFunction h] createServer
  = flitz_get [VString "/a"; VObject (Some [VFunction f]); VFunction h] createServer.
Proof.
  intros f h.
  apply (route_call_shapes_agree "GET" (PathString "/a") (SingleMiddleware f)
           (OptionsRecord (Some [f])) h VNull createServer); reflexivity.
Defined.

(** X4. Only the first three arguments of a registration call are looked
    at, and with three or more the handler is the third: a call with
    further arguments is the call with the first three, and a call that
    passes the handler second and an explicit [undefined] third throws. *)
Theorem registration_looks_at_three_arguments
    (m : string) (a0 a1 a2 : JSValue) (more : list JSValue) (h : Func) (st : Server) :
  flitz_method m (a0 :: a1 :: a2 :: more) st = flitz_method m [a0; a1; a2] st
  ∧ raises_InvalidArgument (fst (flitz_method m [a0; VFunction h; VUndefined] st))
  ∧ snd (flitz_method m [a0; VFunction h; VUndefined] st) = st.
Proof.
  split; [reflexivity|].
  destruct (is_path a0) eqn:Hp.
  - unfold flitz_method. rewrite withMethod_bad_handler by (exact Hp || reflexivity).
    split; [eexists; reflexivity | reflexivity].
  - unfold flitz_method. rewrite withMethod_bad_path by exact Hp.
    split; [eexists; reflexivity | reflexivity].
Qed.

(** ** The scan of a bucket *)

Lemma first_match_at_cons req c bucket k ctx :
  isPathValid c req = Returns false ->
  first_match_at req bucket k ctx -> first_match_at req (c :: bucket) (S k) ctx.
Proof.
  intros Hc (Hk & Ht & Hbefore). split; [exact Hk|]. split; [exact Ht|].
  intros [|j] c' Hj Hc'; simpl in Hc'.
  - injection Hc' as <-. exact Hc.
  - apply (Hbefore j c'); [lia | exact Hc'].
Qed.

Lemma first_throw_at_cons req c bucket k e :
  isPathValid c req = Returns false ->
  first_throw_at req bucket k e -> first_throw_at req (c :: bucket) (S k) e.
Proof.
  intros Hc (Hk & Hbefore). split; [exact Hk|].
  intros [|j] c' Hj Hc'; simpl in Hc'.
  - injection Hc' as <-. exact Hc.
  - apply (Hbefore j c'); [lia | exact Hc'].
Qed.

(** X5. Whatever the validators of a bucket return or throw, the scan
    evaluates the validators of an initial segment of the bucket, each
    once and in registration order, and its outcome is one of three: the
    first match, at the last route evaluated; a throw, at the last route
    evaluated; or no match, after the whole bucket. *)
Theorem find_ctx_evaluates_a_prefix (req : Request) (bucket : list RequestHandlerContext) :
  ∀ (k : nat) (w : World),
    ∃ n, (n <= length bucket)%nat
         ∧ snd (find_ctx req k bucket w) = w ++ map EvTest (seq k n)
         ∧ match fst (find_ctx req k bucket w) with
           | Found ctx => first_match_at req bucket (n - 1) ctx ∧ (1 <= n)%nat
           | Threw e => first_throw_at req bucket (n - 1) e ∧ (1 <= n)%nat
           | NotFound => n = length bucket ∧ no_match req bucket
           end.
Proof.
  induction bucket as [|c bucket IH]; intros k w.
  - exists 0%nat. simpl. rewrite app_nil_r. repeat split; constructor.
  - simpl. destruct (isPathValid c req) as [[|]|e] eqn:Hc.
    + exists 1%nat. simpl. split; [lia|]. split; [reflexivity|].
      split; [|lia]. split; [reflexivity|]. split; [exact Hc|].
      intros j c' Hj. lia.
    + destruct (IH (S k) (log (EvTest k) w)) as (n & Hn & Hw & Hout).
      exists (S n). split; [lia|]. split.
      * rewrite Hw. unfold log. rewrite <- app_assoc. reflexivity.
      * destruct (fst (find_ctx req (S k) bucket (log (EvTest k) w))) as [ctx| |e].
        -- destruct Hout as [Hfirst Hpos]. split; [|lia].
           replace (S n - 1)%nat with (S (n - 1)) by lia.
           apply first_match_at_cons; assumption.
        -- destruct Hout as [-> Hnone]. split; [reflexivity|].
           constructor; assumption.
        -- destruct Hout as [Hthrow Hpos]. split; [|lia].
           replace (S n - 1)%nat with (S (n - 1)) by lia.
           apply first_throw_at_cons; assumption.
    + exists 1%nat. simpl. split; [lia|]. split; [reflexivity|].
      split; [|lia]. split.
      * exists c. split; [reflexivity | exact Hc].
      * intros j c' Hj. lia.
Qed.

(** ** Routing and global middlewares *)

Lemma find_ctx_with_globals req gs bucket : ∀ k w,
  find_ctx req k (map (with_globals gs) bucket) w
  = (map_found (with_globals gs) (fst (find_ctx req k bucket w)),
     snd (find_ctx req k bucket w)).
Proof.
  induction bucket as [|c bucket IH]; intros k w; simpl; [reflexivity|].
  destruct (isPathValid c req) as [[|]|e]; simpl; try reflexivity. apply IH.
Qed.

Lemma run_calls_compiled calls :
  let st := run_calls calls createServer in
  compiledHandlers st
  = compileAllWithMiddlewares (groupedHandlers st) (globalMiddleWares st)
      server_getErrorHandler.
Proof.
  intros st. subst st. rewrite run_calls_accepted.
  destruct (run_ops_state (omap accepted calls) createServer)
    as (st' & Hrun & _ & _ & _ & _ & Hc).
  rewrite Hrun. simpl.
  destruct (omap accepted calls) as [|op ops].
  - simpl in Hrun. injection Hrun as <-. reflexivity.
  - apply Hc. discriminate.
Qed.

Lemma select_compile raw gs req :
  select (compileAllWithMiddlewares raw gs server_getErrorHandler) req
  = map_found (with_globals gs) (select raw req).
Proof.
  unfold select. rewrite compile_lookup.
  destruct (raw !! method req) as [bucket|]; simpl; [|reflexivity].
  rewrite find_ctx_with_globals. reflexivity.
Qed.

(** X6. Global middlewares have no say in routing: compiling a table
    with any list of middlewares selects, for every request, the route
    at the same place as the raw table does (or none, or the same
    throw); so on a server set up by any sequence of calls, [use()]
    changes how the selected handler is wrapped and never which route
    is selected. *)
Theorem global_middlewares_do_not_change_routing
    (raw : RequestHandlersGrouped) (gs : list Func) (calls : list Call) (req : Request) :
  select (compileAllWithMiddlewares raw gs server_getErrorHandler) req
  = map_found (with_globals gs) (select raw req)
  ∧ let st := run_calls calls createServer in
    select (compiledHandlers st) req
    = map_found (with_globals (globalMiddleWares st)) (select (groupedHandlers st) req).
Proof.
  split; [apply select_compile|].
  intros st. subst st.
  pose proof (run_calls_compiled calls) as Hc. cbv zeta in Hc.
  rewrite Hc. apply select_compile.
Qed.

Lemma find_ctx_app req bucket later : ∀ k w,
  fst (find_ctx req k bucket w) ≠ NotFound ->
  find_ctx req k (bucket ++ later) w = find_ctx req k bucket w.
Proof.
  induction bucket as [|c bucket IH]; intros k w Hfound; simpl in *.
  - congruence.
  - destruct (isPathValid c req) as [[|]|e]; try reflexivity. apply IH. exact Hfound.
Qed.

Lemma run_calls_app calls1 calls2 st :
  run_calls (calls1 ++ calls2) st = run_calls calls2 (run_calls calls1 st).
Proof. unfold run_calls. apply fold_left_app. Qed.

Lemma run_calls_bucket calls st m :
  groupedHandlers (run_calls calls st) !! m
  = extend (groupedHandlers st !! m) (registered_routes m (omap accepted calls)).
Proof.
  rewrite run_calls_accepted.
  destruct (run_ops_state (omap accepted calls) st) as (st' & Hrun & _ & _ & _ & Hg & _).
  rewrite Hrun. apply Hg.
Qed.

(** X7. Routes are only ever appended: once a request has a route
    that the scan selects (or a validator at which the scan throws), no
    later call of [use()] or of a registration function, accepted or
    rejected, changes that selection; a route registered later that
    would match the same request is never reached.  In the compiled
    table the selected route is that same route wrapped with the global
    middlewares of the time. *)
Theorem later_calls_keep_the_selected_route
    (before later : list Call) (req : Request) :
  let st := run_calls before createServer in
  let st' := run_calls later st in
  select (groupedHandlers st) req ≠ NotFound ->
  select (groupedHandlers st') req = select (groupedHandlers st) req
  ∧ select (compiledHandlers st') req
    = map_found (with_globals (globalMiddleWares st')) (select (groupedHandlers st) req).
Proof.
  intros st st' Hsel.
  assert (Hraw : select (groupedHandlers st') req = select (groupedHandlers st) req).
  { unfold select in *. subst st'. rewrite run_calls_bucket.
    destruct (groupedHandlers st !! method req) as [bucket|]; [|congruence].
    unfold extend. simpl. rewrite find_ctx_app by exact Hsel. reflexivity. }
  split; [exact Hraw|].
  rewrite <- Hraw. subst st' st. rewrite <- run_calls_app.
  pose proof (run_calls_compiled (before ++ later)) as Hc. cbv zeta in Hc.
  rewrite Hc. apply select_compile.
Qed.

Lemma later_calls_keep_the_selected_route_witness :
  let provider :=
    CallMethod "GET"
      [VFunction (createStaticPathValidator "/static");
       VFunction (createStaticHandlerCached example_root ["srv"; "www"] "/static")] in
  let st := run_calls [provider] createServer in
  let st' := run_calls [CallUse [VFunction (passing "g1")];
                        CallMethod "GET" [VString "/static/api";
                                          VFunction (responding "H")]] st in
  select (groupedHandlers st') (GET "/static/api")
  = select (groupedHandlers st) (GET "/static/api")
  ∧ select (compiledHandlers st') (GET "/static/api")
    = map_found (with_globals (globalMiddleWares st'))
        (select (groupedHandlers st) (GET "/static/api")).
Proof.
  intros provider st st'.
  apply (later_calls_keep_the_selected_route [provider]
           [CallUse [VFunction (passing "g1")];
            CallMethod "GET" [VString "/static/api"; VFunction (responding "H")]]
           (GET "/static/api")).
  discriminate.
Defined.

(** ** Requests that no route matches *)


Lemma invocations_error_cons f e ops :
  invocations (EvCallError f e :: map EvRes ops) = [EvCallError f e].
Proof. unfold invocations. simpl. f_equal. apply invocations_res. Qed.



(** ** Chains whose stages do not all call [next] once *)

Lemma call_handler_stopping req c f :
  stops_without_next req c f -> ∀ w, fst (call_handler f req w) = c.
Proof.
  intros Hf w. unfold call_handler, call, run_script.
  destruct (Hf (log (EvCall (fname f)) w)) as (ops & ->). simpl.
  rewrite run_steps_log_only_do. reflexivity.
Qed.

(** A stage that settles without calling [next] ends the chain, whether
    it resolves or rejects. *)
Lemma mergeHandler_stopping h ge env req ms coop f tail c w :
  ms = coop ++ f :: tail ->
  Forall (calls_next_once req) coop ->
  stops_without_next req c f ->
  mergeHandler h ms ge env req w
  = (Resolved, chain_trace req coop (settle ge env req (handler_of f)) w).
Proof.
  intros Hms Hcoop Hf. unfold mergeHandler. f_equal.
  rewrite (next_cooperative_prefix h ms ge env req coop [] (f :: tail) (length ms));
    [ | exact Hms | reflexivity | exact Hcoop | subst ms; rewrite length_app; lia ].
  simpl. apply chain_trace_ext. intros w'.
  replace (length ms - length coop)%nat with (S (length tail))
    by (subst ms; rewrite length_app; simpl; lia).
  simpl next. subst ms. rewrite array_get_middle.
  unfold settle, handler_of, call_handler, call, run_script. simpl.
  destruct (Hf (log (EvCall (fname f)) w')) as (ops & Hrun).
  rewrite Hrun. simpl.
  rewrite run_steps_frame_only_do, run_steps_log_only_do. reflexivity.
Qed.

Lemma wrap_with_stopping env req h ms coop f tail c :
  ms = coop ++ f :: tail ->
  Forall (calls_next_once req) coop ->
  stops_without_next req c f ->
  ∀ w, wrap_with ms h env req w
       = (Resolved,
          chain_trace req coop (settle server_getErrorHandler env req (handler_of f)) w).
Proof.
  intros Hms Hcoop Hf w.
  destruct ms as [|f0 ms]; [destruct coop; discriminate Hms|].
  unfold wrap_with. apply (mergeHandler_stopping _ _ _ _ _ coop f tail c); assumption.
Qed.

Lemma wrap_nested_stopping env req gs rs h coop f tail c :
  gs ++ rs = coop ++ f :: tail ->
  Forall (calls_next_once req) coop ->
  stops_without_next req c f ->
  ∀ w, wrap_with gs (wrap_with rs h) env req w
       = (Resolved,
          chain_trace req coop (settle server_getErrorHandler env req (handler_of f)) w).
Proof.
  intros Hsplit Hcoop Hf w.
  apply app_eq_app in Hsplit as [l [[Hgs Htail]|[Hc Hrs]]].
  - destruct l as [|f' l].
    + simpl in Htail. rewrite app_nil_r in Hgs. subst gs.
      rewrite <- (app_nil_r coop) at 2. rewrite chain_trace_app.
      apply (wrap_with_cooperative _ _ _ coop _ Hcoop).
      intros w'. simpl.
      apply (wrap_with_stopping env req h rs [] f tail c);
        [symmetry; exact Htail | constructor | exact Hf].
    + injection Htail as <- Htail.
      apply (wrap_with_stopping env req _ gs coop f l c); assumption.
  - subst coop. apply Forall_app in Hcoop as [Hgs Hl].
    rewrite chain_trace_app.
    apply (wrap_with_cooperative _ _ _ gs _ Hgs).
    intros w'. apply (wrap_with_stopping env req h rs l f tail c); assumption.
Qed.

(** Cooperative middlewares in front of any handler: one chain that ends
    with the handler and the [catch] on its promise. *)
Lemma wrap_route_then_globals_any env req gs rs h :
  Forall (calls_next_once req) (gs ++ rs) ->
  gs ++ rs ≠ [] ->
  ∀ w, wrap_with gs (wrap_with rs h) env req w
       = (Resolved,
          chain_trace req (gs ++ rs) (settle server_getErrorHandler env req h) w).
Proof.
  intros Hall Hne w. apply Forall_app in Hall as [Hgs Hrs].
  destruct rs as [|r rs].
  - rewrite app_nil_r in *. destruct gs as [|g gs]; [congruence|].
    unfold wrap_with. apply mergeHandler_cooperative. exact Hgs.
  - rewrite chain_trace_app.
    apply (wrap_with_cooperative _ _ _ gs _ Hgs).
    intros w'. unfold wrap_with. apply mergeHandler_cooperative. exact Hrs.
Qed.

Lemma registered_dispatch st p o H more eh req w :
  let gs := globalMiddleWares st ++ more in
  let old := default [] (groupedHandlers st !! method req) in
  no_match req old ->
  validator_of (value_of_path p) req = Returns true ->
  flitz (configured eh (register_then_use st (method req) p o H more)) req w
  = await_or_catch eh req
      (wrap_with gs (wrap_with (route_middlewares o) (handler_of H))
         {| env_errorHandler := eh |} req (w ++ tests (S (length old)))).
Proof.
  intros gs old Hold Hp.
  destruct (register_then_use_state st (method req) p o H more) as (_ & _ & _ & Hc).
  fold gs old in Hc. unfold flitz.
  exact (dispatch_first_match _ _ _ req w _ (length old) _ Hc
           (registered_route_first_match req gs old (route_of p o H) Hold Hp)).
Qed.

Lemma error_calls_of_invocations w w0 calls :
  invocations w = invocations w0 ++ calls ->
  error_calls w = error_calls w0 ++ error_calls calls.
Proof.
  intros Hw. rewrite <- (error_calls_invocations w), Hw, error_calls_app.
  rewrite error_calls_invocations. reflexivity.
Qed.

Lemma invocations_tests_after w n : invocations (w ++ tests n) = invocations w.
Proof.
  rewrite invocations_app. unfold tests. rewrite invocations_tests, app_nil_r.
  reflexivity.
Qed.

(** X9. When every middleware before it calls [next()] exactly once and
    resolves, a middleware that settles its promise as resolved without
    calling [next()] ends the request: the calls made are those
    middlewares and the one that stops; no later middleware, not the
    route handler and not the error handler is called, and the
    dispatcher resolves.  (A middleware before it that calls [next()]
    again moves the chain on, as X12 describes.) *)
Theorem middleware_without_next_ends_the_chain
    (st : Server) (p : RequestPath) (o : OptionsOrMiddlewares) (H : Func)
    (more : list Func) (eh : Func) (req : Request) (w : World)
    (coop : list Func) (f : Func) (tail : list Func) :
  let gs := globalMiddleWares st ++ more in
  let rs := route_middlewares o in
  let st' := configured eh (register_then_use st (method req) p o H more) in
  let old := default [] (groupedHandlers st !! method req) in
  no_match req old ->
  validator_of (value_of_path p) req = Returns true ->
  gs ++ rs = coop ++ f :: tail ->
  Forall (calls_next_once req) coop ->
  stops_without_next req Resolved f ->
  flitz st' req w
  = (Resolved,
     chain_trace req coop (fun w' => snd (call_handler f req w'))
       (w ++ tests (S (length old))))
  ∧ invocations (snd (flitz st' req w)) = invocations w ++ names coop ++ [EvCall (fname f)]
  ∧ error_calls (snd (flitz st' req w)) = error_calls w.
Proof.
  intros gs rs st' old Hold Hp Hsplit Hcoop Hf.
  assert (Hrun : flitz st' req w
                 = (Resolved,
                    chain_trace req coop (fun w' => snd (call_handler f req w'))
                      (w ++ tests (S (length old))))).
  { unfold st'. rewrite (registered_dispatch st p o H more eh req w Hold Hp).
    fold gs rs.
    rewrite (wrap_nested_stopping _ req gs rs _ coop f tail Resolved Hsplit Hcoop Hf).
    cbn [await_or_catch]. f_equal. apply chain_trace_ext. intros w'.
    unfold settle, handler_of.
    pose proof (call_handler_stopping req Resolved f Hf w') as Hc.
    destruct (call_handler f req w') as [c w'']. simpl in Hc. subst c. reflexivity. }
  assert (Hinv : invocations (snd (flitz st' req w))
                 = invocations w ++ names coop ++ [EvCall (fname f)]).
  { rewrite Hrun. cbn [snd].
    rewrite (invocations_chain_trace req coop _ [EvCall (fname f)]).
    - rewrite invocations_tests_after. reflexivity.
    - intros w'. apply invocations_call_handler. }
  split; [exact Hrun|]. split; [exact Hinv|].
  rewrite (error_calls_of_invocations _ _ _ Hinv).
  rewrite error_calls_app, error_calls_names. simpl. rewrite app_nil_r. reflexivity.
Qed.

Lemma middleware_without_next_ends_the_chain_witness :
  let st := snd (flitz_use [VFunction (passing "g1"); VFunction (responding "guard")]
                   createServer) in
  let st' := configured defaultErrorHandler
               (register_then_use st "GET" (PathString "/a")
                  (MiddlewareList [passing "r1"]) (responding "H") []) in
  invocations (snd (flitz st' (GET "/a") [])) = [] ++ names [passing "g1"] ++ [EvCall "guard"]
  ∧ error_calls (snd (flitz st' (GET "/a") [])) = [].
Proof.
  intros st st'.
  apply (middleware_without_next_ends_the_chain st (PathString "/a")
           (MiddlewareList [passing "r1"]) (responding "H") [] defaultErrorHandler
           (GET "/a") [] [passing "g1"] (responding "guard") [passing "r1"]).
  - constructor.
  - reflexivity.
  - reflexivity.
  - repeat constructor; intros w; exists [], []; reflexivity.
  - intros w. exists [WriteHead 200; EndResponse]. reflexivity.
Defined.

Lemma invocations_settle_rejecting env req H e :
  (∀ w, fst (call_handler H req w) = Rejected e) ->
  ∀ w, invocations (settle server_getErrorHandler env req (handler_of H) w)
       = invocations w ++ [EvCall (fname H); EvCallError (fname (env_errorHandler env)) e].
Proof.
  intros HH w. unfold settle, handler_of.
  pose proof (HH w) as Hc. pose proof (invocations_call_handler H req w) as Hi.
  destruct (call_handler H req w) as [c w']. simpl in Hc, Hi. subst c.
  rewrite invocations_catch, Hi, <- app_assoc. reflexivity.
Qed.

(** X10. When the route handler itself rejects with [e], after
    middlewares that each called [next()] once, the error handler is
    called once with [e], after the handler: this holds whether the
    handler is reached through middlewares (the [catch] of the chain
    calls it) or directly (the [catch] of the dispatcher calls it). *)
Theorem handler_failure_reaches_error_handler_once
    (st : Server) (p : RequestPath) (o : OptionsOrMiddlewares) (H : Func)
    (more : list Func) (eh : Func) (req : Request) (w : World) (e : JSError) :
  let gs := globalMiddleWares st ++ more in
  let rs := route_middlewares o in
  let st' := configured eh (register_then_use st (method req) p o H more) in
  let old := default [] (groupedHandlers st !! method req) in
  no_match req old ->
  validator_of (value_of_path p) req = Returns true ->
  Forall (calls_next_once req) (gs ++ rs) ->
  (∀ w', fst (call_handler H req w') = Rejected e) ->
  invocations (snd (flitz st' req w))
  = invocations w ++ names (gs ++ rs) ++ [EvCall (fname H); EvCallError (fname eh) e]
  ∧ error_calls (snd (flitz st' req w)) = error_calls w ++ [EvCallError (fname eh) e].
Proof.
  intros gs rs st' old Hold Hp Hall HH.
  assert (Hinv : invocations (snd (flitz st' req w))
                 = invocations w ++ names (gs ++ rs)
                   ++ [EvCall (fname H); EvCallError (fname eh) e]).
  { unfold st'. rewrite (registered_dispatch st p o H more eh req w Hold Hp).
    fold gs rs old. destruct (gs ++ rs) as [|m l] eqn:Hl.
    - apply app_eq_nil in Hl as [-> ->]. cbn [wrap_with]. unfold handler_of.
      pose proof (HH (w ++ tests (S (length old)))) as Hc.
      pose proof (invocations_call_handler H req (w ++ tests (S (length old)))) as Hi.
      destruct (call_handler H req (w ++ tests (S (length old)))) as [c w'].
      simpl in Hc, Hi. subst c. cbn [await_or_catch].
      destruct (call_error_handler_trace eh e req w') as (ops & c & ->). cbn [snd].
      rewrite invocations_app, Hi, invocations_tests_after, invocations_error_cons.
      rewrite <- app_assoc. reflexivity.
    - rewrite (wrap_route_then_globals_any _ req gs rs _);
        [ | rewrite Hl; exact Hall | rewrite Hl; discriminate ].
      cbn [await_or_catch snd]. rewrite Hl.
      rewrite (invocations_chain_trace req (m :: l) _
                 [EvCall (fname H); EvCallError (fname eh) e]).
      + rewrite invocations_tests_after. reflexivity.
      + intros w'. apply (invocations_settle_rejecting {| env_errorHandler := eh |} req H e HH). }
  split; [exact Hinv|].
  rewrite (error_calls_of_invocations _ _ _ Hinv).
  rewrite error_calls_app, error_calls_names. reflexivity.
Qed.

Lemma handler_failure_reaches_error_handler_once_witness :
  let st := snd (flitz_use [VFunction (passing "g1")] createServer) in
  let st' := configured defaultErrorHandler
               (register_then_use st "GET" (PathString "/a") NoOptions
                  (failing "H" (Failure "boom")) []) in
  error_calls (snd (flitz st' (GET "/a") []))
  = [] ++ [EvCallError "defaultErrorHandler" (Failure "boom")].
Proof.
  intros st st'.
  apply (handler_failure_reaches_error_handler_once st (PathString "/a") NoOptions
           (failing "H" (Failure "boom")) [] defaultErrorHandler (GET "/a") []
           (Failure "boom")).
  - constructor.
  - reflexivity.
  - repeat constructor; intros w; exists [], []; reflexivity.
  - intros w'. reflexivity.
Defined.

Lemma elem_of_chain_trace req (x : Event) l final :
  (∀ w, x ∈ final w) -> ∀ w, x ∈ chain_trace req l final w.
Proof.
  intros Hfinal. induction l as [|f l IH]; intros w; simpl.
  - apply Hfinal.
  - apply elem_of_app. left. apply IH.
Qed.

(** X11. When the route handler rejects and the error handler rejects
    in turn with [e2], the outcome depends on how the handler was
    reached: without any middleware the promise of the dispatcher
    rejects with [e2]; behind at least one middleware the dispatcher
    resolves, and [e2] is left on a promise that nothing awaits. *)
Theorem error_handler_failure_is_lost_behind_middlewares
    (st : Server) (p : RequestPath) (o : OptionsOrMiddlewares) (H : Func)
    (more : list Func) (eh : Func) (req : Request) (w : World) (e e2 : JSError) :
  let gs := globalMiddleWares st ++ more in
  let rs := route_middlewares o in
  let st' := configured eh (register_then_use st (method req) p o H more) in
  let old := default [] (groupedHandlers st !! method req) in
  no_match req old ->
  validator_of (value_of_path p) req = Returns true ->
  Forall (calls_next_once req) (gs ++ rs) ->
  (∀ w', fst (call_handler H req w') = Rejected e) ->
  (∀ w', fst (call_error_handler eh e req w') = Rejected e2) ->
  match gs ++ rs with
  | [] => fst (flitz st' req w) = Rejected e2
  | _ :: _ => fst (flitz st' req w) = Resolved
              ∧ EvUnhandled e2 ∈ snd (flitz st' req w)
  end.
Proof.
  intros gs rs st' old Hold Hp Hall HH Heh.
  unfold st'. rewrite (registered_dispatch st p o H more eh req w Hold Hp).
  fold gs rs old. destruct (gs ++ rs) as [|m l] eqn:Hl.
  - apply app_eq_nil in Hl as [-> ->]. cbn [wrap_with]. unfold handler_of.
    pose proof (HH (w ++ tests (S (length old)))) as Hc.
    destruct (call_handler H req (w ++ tests (S (length old)))) as [c w'].
    simpl in Hc. subst c. cbn [await_or_catch]. apply Heh.
  - rewrite (wrap_route_then_globals_any _ req gs rs _);
      [ | rewrite Hl; exact Hall | rewrite Hl; discriminate ].
    cbn [await_or_catch fst snd]. split; [reflexivity|].
    apply elem_of_chain_trace. intros w'. unfold settle, handler_of.
    pose proof (HH w') as Hc.
    destruct (call_handler H req w') as [c w'']. simpl in Hc. subst c.
    unfold catch_handleError. cbn [server_getErrorHandler env_errorHandler].
    pose proof (Heh w'') as Hc2.
    destruct (call_error_handler eh e req w'') as [c2 w3]. simpl in Hc2. subst c2.
    unfold log. apply elem_of_app. right. constructor.
Qed.

Lemma error_handler_failure_is_lost_behind_middlewares_witness :
  let st := snd (flitz_use [VFunction (passing "g1")] createServer) in
  let st' := configured (raising "eh" (Failure "again"))
               (register_then_use st "GET" (PathString "/a") NoOptions
                  (failing "H" (Failure "boom")) []) in
  fst (flitz st' (GET "/a") []) = Resolved
  ∧ EvUnhandled (Failure "again") ∈ snd (flitz st' (GET "/a") []).
Proof.
  intros st st'.
  apply (error_handler_failure_is_lost_behind_middlewares st (PathString "/a") NoOptions
           (failing "H" (Failure "boom")) [] (raising "eh" (Failure "again"))
           (GET "/a") [] (Failure "boom") (Failure "again")).
  - constructor.
  - reflexivity.
  - repeat constructor; intros w; exists [], []; reflexivity.
  - intros w'. reflexivity.
  - intros w'. reflexivity.
Defined.

(** ** The order of calls in a chain, whatever its stages do *)

Lemma calls_only_app w1 w2 : calls_only (w1 ++ w2) = calls_only w1 ++ calls_only w2.
Proof. unfold calls_only. induction w1 as [|ev w1 IH]; simpl; [reflexivity|].
  destruct (is_call ev); simpl; rewrite IH; reflexivity. Qed.

Lemma calls_only_res ops : calls_only (map EvRes ops) = [].
Proof. induction ops as [|op ops IH]; simpl; [reflexivity | exact IH]. Qed.

Lemma calls_only_call_handler f req w :
  calls_only (snd (call_handler f req w)) = calls_only w ++ [EvCall (fname f)].
Proof.
  destruct (call_handler_trace f req w) as (ops & c & ->). cbn [snd].
  rewrite calls_only_app. f_equal.
  change (calls_only (EvCall (fname f) :: map EvRes ops))
    with (EvCall (fname f) :: calls_only (map EvRes ops)).
  rewrite calls_only_res. reflexivity.
Qed.

Lemma calls_only_catch ge env req c w :
  calls_only (catch_handleError ge env req c w) = calls_only w.
Proof.
  unfold catch_handleError. destruct c as [|e]; [reflexivity|].
  destruct (call_error_handler_trace (ge env) e req w) as (ops & c & ->).
  assert (Hw : calls_only (w ++ EvCallError (fname (ge env)) e :: map EvRes ops)
               = calls_only w).
  { rewrite calls_only_app.
    change (calls_only (EvCallError (fname (ge env)) e :: map EvRes ops))
      with (calls_only (map EvRes ops)).
    rewrite calls_only_res, app_nil_r. reflexivity. }
  destruct c; [exact Hw|].
  unfold log. rewrite calls_only_app, Hw. apply app_nil_r.
Qed.

Lemma call_seq_middleware ms H n mw :
  ms !! n = Some mw ->
  call_seq ms H (S n) = call_seq ms H n ++ [EvCall (fname mw)].
Proof.
  intros Hn. pose proof (lookup_lt_Some _ _ _ Hn) as Hlt. unfold call_seq.
  rewrite (take_S_r _ _ _ Hn), names_app.
  replace (S n - length ms)%nat with 0%nat by lia.
  replace (n - length ms)%nat with 0%nat by lia.
  simpl. rewrite !app_nil_r. reflexivity.
Qed.

Lemma call_seq_handler ms H n :
  (length ms <= n)%nat ->
  call_seq ms H (S n) = call_seq ms H n ++ [EvCall (fname H)].
Proof.
  intros Hn. unfold call_seq.
  rewrite !take_ge by lia.
  replace (S n - length ms)%nat with (S (n - length ms)) by lia.
  rewrite <- app_assoc. f_equal.
  generalize (n - length ms)%nat. intros k.
  induction k as [|k IH]; simpl; [reflexivity|]. f_equal. exact IH.
Qed.

Lemma next_unfold h ms ge env req depth fr :
  next h ms ge env req depth fr
  = match array_get ms (i fr + 1) with
    | Some mw =>
        match depth with
        | O => {| i := i fr + 1; res := res fr |}
        | S depth' =>
            let '(c, fr') := call res frame_emit (Some (next h ms ge env req depth'))
                               mw req {| i := i fr + 1; res := res fr |} in
            {| i := i fr'; res := catch_handleError ge env req c (res fr') |}
        end
    | None =>
        let '(c, w) := h env req (res fr) in
        {| i := i fr + 1; res := catch_handleError ge env req c w |}
    end.
Proof. destruct depth; reflexivity. Qed.

Section CallOrder.
Context (H : Func) (ms : list Func) (ge : GetFunc Func).
Context (env : Env) (req : Request) (base : World).

Abbreviation in_order fr :=
  (calls_only (res fr) = base ++ call_seq ms H (Z.to_nat (i fr + 1))).

Lemma run_steps_in_order k lo :
  (∀ fr, lo <= i fr -> in_order fr -> in_order (k fr) ∧ lo <= i (k fr)) ->
  ∀ ss c fr, lo <= i fr -> in_order fr ->
    in_order (snd (run_steps frame_emit (Some k) ss c fr))
    ∧ lo <= i (snd (run_steps frame_emit (Some k) ss c fr)).
Proof.
  intros Hk. induction ss as [|[op|] ss IH]; intros c fr Hlo Hfr; simpl.
  - split; assumption.
  - apply IH; [exact Hlo|]. cbn [frame_emit res i]. unfold log.
    rewrite calls_only_app. change (calls_only [EvRes op]) with (@nil Event).
    rewrite app_nil_r. exact Hfr.
  - destruct (Hk fr Hlo Hfr) as [Hfr' Hlo']. apply IH; assumption.
Qed.

Lemma next_in_order depth : ∀ fr,
  -1 <= i fr ->
  Z.of_nat (length ms) <= Z.of_nat depth + (i fr + 1) ->
  in_order fr ->
  in_order (next (handler_of H) ms ge env req depth fr).
Proof.
  induction depth as [|depth IH]; intros fr Hi Hd Hfr; rewrite next_unfold.
  - destruct (array_get ms (i fr + 1)) as [mw|] eqn:Hget.
    + exfalso. unfold array_get in Hget.
      destruct (i fr + 1 <? 0); [discriminate Hget|].
      apply lookup_lt_Some in Hget. lia.
    + unfold handler_of.
      pose proof (calls_only_call_handler H req (res fr)) as Hcall.
      destruct (call_handler H req (res fr)) as [c w']. cbn [snd] in Hcall.
      cbn [res i]. rewrite calls_only_catch, Hcall, Hfr, <- app_assoc. f_equal.
      replace (Z.to_nat (i fr + 1 + 1)) with (S (Z.to_nat (i fr + 1))) by lia.
      symmetry. apply call_seq_handler.
      unfold array_get in Hget.
      destruct (i fr + 1 <? 0) eqn:E; [apply Z.ltb_lt in E; lia|].
      apply lookup_ge_None in Hget. exact Hget.
  - destruct (array_get ms (i fr + 1)) as [mw|] eqn:Hget.
    + unfold call, run_script.
      set (fr1 := frame_emit (EvCall (fname mw)) {| i := i fr + 1; res := res fr |}).
      assert (H1 : in_order fr1).
      { subst fr1. cbn [frame_emit res i]. unfold log.
        rewrite calls_only_app, Hfr, <- app_assoc. f_equal.
        replace (Z.to_nat (i fr + 1 + 1)) with (S (Z.to_nat (i fr + 1))) by lia.
        symmetry. apply call_seq_middleware.
        unfold array_get in Hget.
        destruct (i fr + 1 <? 0); [discriminate Hget | exact Hget]. }
      destruct (run_steps_in_order (next (handler_of H) ms ge env req depth) (i fr + 1))
        with (ss := steps (run mw req (res fr1))) (c := completion (run mw req (res fr1)))
             (fr := fr1) as [Hres _].
      * intros fr' Hlo Hfr'. split.
        -- apply IH; [lia | lia | exact Hfr'].
        -- pose proof (next_cursor_grows (handler_of H) ms ge env req depth fr'). lia.
      * subst fr1. cbn [frame_emit i]. lia.
      * exact H1.
      * destruct (run_steps _ _ _ _ _) as [c fr2]. cbn [snd] in Hres. cbn [res i].
        rewrite calls_only_catch. exact Hres.
    + unfold handler_of.
      pose proof (calls_only_call_handler H req (res fr)) as Hcall.
      destruct (call_handler H req (res fr)) as [c w']. cbn [snd] in Hcall.
      cbn [res i]. rewrite calls_only_catch, Hcall, Hfr, <- app_assoc. f_equal.
      replace (Z.to_nat (i fr + 1 + 1)) with (S (Z.to_nat (i fr + 1))) by lia.
      symmetry. apply call_seq_handler.
      unfold array_get in Hget.
      destruct (i fr + 1 <? 0) eqn:E; [apply Z.ltb_lt in E; lia|].
      apply lookup_ge_None in Hget. exact Hget.
Qed.
End CallOrder.

(** X12. Whatever the middlewares of a chain do (call [next()] once,
    several times or never, resolve or reject), the functions the chain
    calls are, in this order, the middlewares of an initial segment of
    the array, each once, and then, only when the array is exhausted,
    the handler, once for each further call of [next()].  At least one
    function is called. *)
Theorem mergeHandler_calls_in_array_order
    (H : Func) (ms : list Func) (ge : GetFunc Func) (env : Env) (req : Request)
    (w : World) :
  ∃ n, (1 <= n)%nat
       ∧ calls_only (snd (mergeHandler (handler_of H) ms ge env req w))
         = calls_only w ++ call_seq ms H n.
Proof.
  unfold mergeHandler. cbn [snd].
  set (fr := next (handler_of H) ms ge env req (length ms) {| i := -1; res := w |}).
  exists (Z.to_nat (i fr + 1)). split.
  - pose proof (next_cursor_grows (handler_of H) ms ge env req (length ms)
                  {| i := -1; res := w |}) as Hgrow.
    fold fr in Hgrow. cbn [i] in Hgrow. lia.
  - subst fr. apply next_in_order; cbn [i res]; [lia | lia |].
    unfold call_seq. simpl. rewrite ?take_0, ?app_nil_r. reflexivity.
Qed.

(** ** The earlier server *)

Ltac unfold_legacy_M :=
  unfold mbind, Legacy.M_bind, mret, Legacy.M_ret, Legacy.throw, Legacy.get_state,
    Legacy.set_groupedHandlers, Legacy.set_errorHandler, Legacy.set_notFoundHandler in *.

Lemma legacy_method_rejected m arguments st :
  accepted (CallMethod m arguments) = None ->
  ∃ msg, Legacy.flitz_method m arguments st = (Throw (TypeError msg), st).
Proof.
  unfold accepted, Legacy.flitz_method, Legacy.withMethod, handler_arg, classify_path,
    classify_options, middleware_list.
  intros H. unfold_legacy_M. simpl in *.
  repeat (case_scrutinee; simpl in *; try discriminate; try (eexists; reflexivity)).
  all: match goal with
       | H1 : forallb is_function ?l = false,
         H2 : negb (length ?l =? 0)%nat = false |- _ =>
           destruct l; simpl in *; discriminate
       end.
Qed.

Lemma legacy_method_accepted m arguments p o h st :
  accepted (CallMethod m arguments) = Some (OpRoute m p o h) ->
  single_function_form (Legacy.CallMethod m arguments) = false ->
  Legacy.flitz_method m arguments st
  = (Return tt,
     {| Legacy.errorHandler := Legacy.errorHandler st;
        Legacy.groupedHandlers :=
          <[m := default [] (Legacy.groupedHandlers st !! m) ++ [route_of p o h]]>
            (Legacy.groupedHandlers st);
        Legacy.notFoundHandler := Legacy.notFoundHandler st |}).
Proof.
  unfold accepted, handler_arg, classify_path, classify_options, middleware_list,
    single_function_form.
  intros H Hform. simpl in H.
  rewrite <- (insert_after_init m (Legacy.groupedHandlers st)).
  unfold Legacy.flitz_method, Legacy.withMethod, route_of.
  unfold_legacy_M.
  cbn [Legacy.args Legacy.opt_method Legacy.getErrorHandler].
  destruct (arg arguments 0) eqn:H0; simpl in H; try discriminate H;
    (destruct (length arguments <? 3)%nat eqn:Hlen; simpl in H, Hform |- *;
     [ destruct (arg arguments 1) eqn:H1; simpl in H; try discriminate H;
       simplify_eq/=;
       destruct (Legacy.groupedHandlers st !! m) eqn:Hm; simpl; rewrite ?Hm; simpl;
       rewrite ?lookup_insert_eq; reflexivity
     | destruct (arg arguments 2) eqn:H2; simpl in H; try discriminate H;
       destruct (arg arguments 1) as [| |b|n|s0| | |l|[l|]] eqn:H1; simpl in H, Hform |- *;
       try discriminate Hform;
       try destruct b; try destruct (n =? 0) eqn:Hn;
       try destruct (String.eqb s0 EmptyString) eqn:Hs0;
       try destruct (forallb is_function l) eqn:Hl;
       simpl in H |- *; try discriminate H;
       simplify_eq/=;
       rewrite ?Hl; rewrite ?andb_false_r; simpl;
       rewrite ?(wrap_with_functions_of _ l Hl);
       destruct (Legacy.groupedHandlers st !! m) eqn:Hm; simpl; rewrite ?Hm; simpl;
       rewrite ?lookup_insert_eq;
       reflexivity ]).
Qed.

Lemma same_server_step c old new :
  same_server old new ->
  single_function_form c = false ->
  same_server (snd (Legacy.exec_call c old)) (snd (current_call c new))
  ∧ is_throw (fst (Legacy.exec_call c old)) = is_throw (fst (current_call c new)).
Proof.
  intros (Hg & He & Hn & Hgs & Hc) Hform.
  destruct c as [m arguments|handler|handler]; cbn [Legacy.exec_call current_call].
  - destruct (accepted (CallMethod m arguments)) as [op|] eqn:Hacc.
    + destruct (accepted_method_shape m arguments op Hacc) as (p & o & h & ->).
      rewrite (legacy_method_accepted m arguments p o h old Hacc Hform).
      rewrite (exec_call_method_accepted m arguments _ new Hacc).
      cbn [exec_op]. rewrite flitz_method_route. cbn [fst snd is_throw].
      split; [|reflexivity].
      unfold same_server. cbn. rewrite Hg, Hgs. repeat split; assumption.
    + destruct (legacy_method_rejected m arguments old Hacc) as (msg1 & ->).
      destruct (exec_call_method_rejected m arguments new Hacc) as (msg2 & ->).
      cbn [fst snd is_throw]. split; [|reflexivity].
      repeat split; assumption.
  - destruct handler; cbn; (split; [|reflexivity]); repeat split; assumption.
  - destruct handler; cbn; (split; [|reflexivity]); repeat split; assumption.
Qed.

Lemma same_server_dispatch old new :
  same_server old new -> ∀ req w, Legacy.flitz old req w = flitz new req w.
Proof.
  intros (Hg & He & Hn & _ & Hc) req w. unfold Legacy.flitz, flitz.
  rewrite Hg, He, Hn, Hc. reflexivity.
Qed.

(** X13. The earlier server and the current one agree on every setup
    script that uses neither [use()] nor the single-function middleware
    form: started from servers that hold the same routes and handlers,
    the same calls leave them holding the same routes and handlers, a
    further call throws on one exactly when it throws on the other, and
    every request is dispatched with the same result and the same
    effects. *)
Theorem earlier_server_agrees_with_current
    (calls : list Legacy.Call) (c : Legacy.Call) (old : Legacy.Server) (new : Server) :
  same_server old new ->
  forallb (fun c => negb (single_function_form c)) (calls ++ [c]) = true ->
  let old' := Legacy.run_calls calls old in
  let new' := run_current calls new in
  same_server old' new'
  ∧ (∀ req w, Legacy.flitz old' req w = flitz new' req w)
  ∧ is_throw (fst (Legacy.exec_call c old')) = is_throw (fst (current_call c new')).
Proof.
  intros Hsame Hall. rewrite forallb_app in Hall.
  apply andb_prop in Hall as [Hcalls Hc]. simpl in Hc. rewrite andb_true_r in Hc.
  apply negb_true_iff in Hc.
  assert (Hrun : same_server (Legacy.run_calls calls old) (run_current calls new)).
  { clear Hc. revert old new Hsame.
    induction calls as [|c0 calls IH]; intros old new Hsame; [exact Hsame|].
    simpl in Hcalls. apply andb_prop in Hcalls as [Hc0 Hcalls].
    apply negb_true_iff in Hc0.
    unfold Legacy.run_calls, run_current. simpl.
    apply (IH Hcalls). apply same_server_step; assumption. }
  cbv zeta. split; [exact Hrun|]. split.
  - apply same_server_dispatch. exact Hrun.
  - apply same_server_step; assumption.
Qed.

Lemma earlier_server_agrees_with_current_witness :
  let calls := [Legacy.CallMethod "GET"
                  [VString "/a"; VArray [VFunction (passing "r1")];
                   VFunction (responding "H")];
                Legacy.CallSetErrorHandler (VNumber 1)] in
  let old' := Legacy.run_calls calls Legacy.createServer in
  let new' := run_current calls createServer in
  same_server old' new'
  ∧ (∀ req w, Legacy.flitz old' req w = flitz new' req w)
  ∧ is_throw (fst (Legacy.exec_call (Legacy.CallMethod "GET" [VNumber 1]) old'))
    = is_throw (fst (current_call (Legacy.CallMethod "GET" [VNumber 1]) new')).
Proof.
  intros calls.
  apply (earlier_server_agrees_with_current calls (Legacy.CallMethod "GET" [VNumber 1])
           Legacy.createServer createServer).
  - repeat split.
  - reflexivity.
Defined.

(** X14. The one registration form on which the two versions part: a
    single function as middleware, [app.METHOD(path, mw, handler)].
    The earlier [withMethod] throws a [TypeError] and leaves the server
    as it was; the current one returns and appends the route whose
    handler is wrapped with that middleware. *)
Theorem earlier_server_rejects_single_function_middleware
    (m : string) (p : RequestPath) (f h : Func) (old : Legacy.Server) (new : Server) :
  let arguments := route_args p (SingleMiddleware f) h in
  single_function_form (Legacy.CallMethod m arguments) = true
  ∧ Legacy.flitz_method m arguments old
    = (Throw (TypeError "optionsOrMiddlewares must be an object or array"), old)
  ∧ fst (flitz_method m arguments new) = Return tt
  ∧ groupedHandlers (snd (flitz_method m arguments new)) !! m
    = Some (default [] (groupedHandlers new !! m)
              ++ [{| handler := mergeHandler (handler_of h) [f] server_getErrorHandler;
                     isPathValid := validator_of (value_of_path p) |}]).
Proof.
  intros arguments. subst arguments. rewrite flitz_method_route. cbn [fst snd groupedHandlers].
  rewrite lookup_insert_eq.
  repeat split; destruct p; reflexivity.
Qed.

(** ** The keys of the static cache *)

Lemma append_cons (x : Ascii.ascii) (a b : string) :
  String x a +:+ b = String x (a +:+ b).
Proof. reflexivity. Qed.

Lemma append_assoc (a b c : string) : (a +:+ b) +:+ c = a +:+ (b +:+ c).
Proof.
  induction a as [|x a IH]; [reflexivity|].
  rewrite !append_cons, IH. reflexivity.
Qed.

Lemma length_append (a b : string) :
  String.length (a +:+ b) = (String.length a + String.length b)%nat.
Proof.
  induction a as [|x a IH]; [reflexivity|].
  rewrite append_cons. simpl. rewrite IH. reflexivity.
Qed.

Lemma substring_last (a : string) (c : Ascii.ascii) :
  String.substring (String.length a) 1 (a +:+ String c EmptyString) = String c EmptyString.
Proof.
  induction a as [|x a IH]; [reflexivity|].
  rewrite append_cons. simpl. exact IH.
Qed.

Lemma endsWith_slash_appended (b : string) : endsWith (b +:+ "/") "/" = true.
Proof.
  unfold endsWith. rewrite length_append. simpl String.length.
  replace (String.length b + 1 - 1)%nat with (String.length b) by lia.
  rewrite substring_last.
  apply andb_true_intro. split; [apply Nat.leb_le; lia | reflexivity].
Qed.

Lemma key_of_trailing_slash b rel :
  key_of (if endsWith b "/" then b else b +:+ "/") rel = key_of b rel.
Proof.
  destruct (endsWith b "/") eqn:Hb; [reflexivity|].
  unfold key_of. rewrite endsWith_slash_appended, Hb.
  rewrite append_assoc. reflexivity.
Qed.

Lemma fold_left_pointwise {A B} (f g : A -> B -> A) (l : list B) :
  (∀ a b, f a b = g a b) -> ∀ a, fold_left f l a = fold_left g l a.
Proof.
  intros Hfg. induction l as [|b l IH]; intros a; simpl; [reflexivity|].
  rewrite Hfg. apply IH.
Qed.

(** X15. The keys of the static cache are made of [basePath] and the
    path relative to the root directory only: the same tree cached from
    two different root directories gives the same map, and a [basePath]
    written with a trailing "/" gives the same map as without it. *)
Theorem static_cache_ignores_root_and_trailing_slash
    (content : list (string * FsNode)) (rootDir1 rootDir2 : list string)
    (basePath : string) :
  staticFiles content rootDir1 basePath = staticFiles content rootDir2 basePath
  ∧ staticFiles content rootDir1 (if endsWith basePath "/" then basePath
                                  else basePath +:+ "/")
    = staticFiles content rootDir1 basePath.
Proof.
  unfold staticFiles. rewrite !loadAllFiles_files_below. split; [reflexivity|].
  apply fold_left_pointwise. intros files [rel data].
  unfold insert_file. cbn [fst snd]. rewrite key_of_trailing_slash. reflexivity.
Qed.

(** ** The default error handler behind the dispatcher *)

Lemma headersSent_app w1 w2 : headersSent (w1 ++ w2) = headersSent w1 || headersSent w2.
Proof. unfold headersSent. apply existsb_app. Qed.

(** X16. On a new server, when the handler of the matching route acts
    on the response and then rejects with [e], the default error
    handler logs [e] and always ends the response; it writes status
    500 only if [res.headersSent] is still false, that is if before it
    no status line was written, no body data was written and the
    response was not ended, so that a response already begun keeps its
    status. *)
Theorem default_error_handler_ends_failed_response
    (H : Func) (req : Request) (ops : list ResOp) (e : JSError) (w : World) :
  (∀ w', run H req w' = script (map Do ops) (Rejected e)) ->
  let st := snd (flitz_method (method req) [VString (url req); VFunction H] createServer) in
  flitz st req w
  = (Resolved,
     w ++ [EvTest 0; EvCall (fname H)] ++ map EvRes ops
       ++ [EvCallError "defaultErrorHandler" e; EvRes (ConsoleError e)]
       ++ (if headersSent w || headersSent (map EvRes ops) then []
           else [EvRes (WriteHead 500)])
       ++ [EvRes EndResponse]).
Proof.
  intros HH st.
  pose proof (flitz_method_route (method req) (PathString (url req)) NoOptions H
                createServer) as Hreg.
  cbv zeta in Hreg.
  change (route_args _ _ _) with [VString (url req); VFunction H] in Hreg.
  subst st. rewrite Hreg. clear Hreg.
  unfold flitz.
  cbn [snd compiledHandlers notFoundHandler errorHandler globalMiddleWares
       groupedHandlers createServer].
  rewrite compile_nil.
  assert (Hfirst : first_match_at req [route_of (PathString (url req)) NoOptions H] 0
                     (route_of (PathString (url req)) NoOptions H)).
  { split; [reflexivity|]. split.
    - simpl. unfold isPathValidByString. rewrite String.eqb_refl. reflexivity.
    - intros j c Hj. lia. }
  erewrite dispatch_first_match;
    [ | apply lookup_insert_eq | rewrite lookup_empty; exact Hfirst ].
  cbn [handler route_of route_middlewares wrap_with]. unfold handler_of.
  unfold call_handler, call, run_script. rewrite HH. cbn [steps completion script].
  rewrite run_steps_log_only_do. cbn [await_or_catch].
  unfold call_error_handler, run_script, defaultErrorHandler.
  cbn [recover fname steps completion script].
  unfold log, tests. cbn [seq map].
  rewrite !headersSent_app. cbn [headersSent existsb orb].
  rewrite !orb_false_r.
  destruct (headersSent w || headersSent (map EvRes ops)); simpl;
    unfold log; rewrite <- !app_assoc; reflexivity.
Qed.

Lemma default_error_handler_ends_failed_response_witness :
  let H := {| fname := "H"; validate := fun _ => Returns true;
              run := fun _ _ => script (map Do [EndResponse]) (Rejected (Failure "late"));
              recover := fun _ _ _ => idle |} in
  let st := snd (flitz_method "GET" [VString "/a"; VFunction H] createServer) in
  flitz st (GET "/a") []
  = (Resolved,
     [] ++ [EvTest 0; EvCall "H"] ++ map EvRes [EndResponse]
       ++ [EvCallError "defaultErrorHandler" (Failure "late");
           EvRes (ConsoleError (Failure "late"))]
       ++ []
       ++ [EvRes EndResponse]).
Proof.
  intros H st.
  apply (default_error_handler_ends_failed_response H (GET "/a") [EndResponse]
           (Failure "late") []).
  intros w'. reflexivity.
Defined.

(** ** Setting the handlers of the server *)

Lemma exec_call_after_setErrorHandler v c st :
  snd (exec_call c (snd (flitz_setErrorHandler v st)))
  = snd (flitz_setErrorHandler v (snd (exec_call c st))).
Proof.
  destruct (is_function v) eqn:Hv.
  - destruct v; try discriminate Hv. cbn [flitz_setErrorHandler].
    pose proof (exec_call_sound c st) as H1.
    pose proof (exec_call_sound c (snd (set_errorHandler f st))) as H2.
    destruct (accepted c) as [[mws|m p o h]|].
    + rewrite H1, H2. cbn [exec_op]. rewrite !flitz_use_functions. reflexivity.
    + rewrite H1, H2. cbn [exec_op]. rewrite !flitz_method_route. reflexivity.
    + destruct H1 as [msg1 ->]. destruct H2 as [msg2 ->]. reflexivity.
  - destruct v; try discriminate Hv; reflexivity.
Qed.

Lemma exec_call_after_setNotFoundHandler v c st :
  snd (exec_call c (snd (flitz_setNotFoundHandler v st)))
  = snd (flitz_setNotFoundHandler v (snd (exec_call c st))).
Proof.
  destruct (is_function v) eqn:Hv.
  - destruct v; try discriminate Hv. cbn [flitz_setNotFoundHandler].
    pose proof (exec_call_sound c st) as H1.
    pose proof (exec_call_sound c (snd (set_notFoundHandler f st))) as H2.
    destruct (accepted c) as [[mws|m p o h]|].
    + rewrite H1, H2. cbn [exec_op]. rewrite !flitz_use_functions. reflexivity.
    + rewrite H1, H2. cbn [exec_op]. rewrite !flitz_method_route. reflexivity.
    + destruct H1 as [msg1 ->]. destruct H2 as [msg2 ->]. reflexivity.
  - destruct v; try discriminate Hv; reflexivity.
Qed.

(** X17. The error handler and the not-found handler are looked up
    when a request is served, not when a route is registered: setting
    one of them before any sequence of [use()] and registration calls
    leaves the server in the same state as setting it after them, so
    routes and middleware chains built earlier answer with the handler
    set last.  A value that is not a function is refused with a
    [TypeError] and changes nothing. *)
Theorem handlers_can_be_set_before_or_after_routes
    (calls : list Call) (v : JSValue) (st : Server) :
  run_calls calls (snd (flitz_setErrorHandler v st))
  = snd (flitz_setErrorHandler v (run_calls calls st))
  ∧ run_calls calls (snd (flitz_setNotFoundHandler v st))
    = snd (flitz_setNotFoundHandler v (run_calls calls st))
  ∧ (if is_function v
     then fst (flitz_setErrorHandler v st) = Return tt
          ∧ fst (flitz_setNotFoundHandler v st) = Return tt
     else flitz_setErrorHandler v st
          = (Throw (TypeError "handler must be a function"), st)
          ∧ flitz_setNotFoundHandler v st
            = (Throw (TypeError "handler must be a function"), st)).
Proof.
  split; [|split].
  - revert st. induction calls as [|c calls IH]; intros st; [reflexivity|].
    unfold run_calls in *. simpl.
    rewrite exec_call_after_setErrorHandler. apply IH.
  - revert st. induction calls as [|c calls IH]; intros st; [reflexivity|].
    unfold run_calls in *. simpl.
    rewrite exec_call_after_setNotFoundHandler. apply IH.
  - destruct v; simpl; split; reflexivity.
Qed.
